(** * BasicEnvoyExtender: a shallow embedding of
      envoyextensions/extensioncommon/basic_envoy_extender.go

    The development follows the Go file top to bottom: the xDS payloads the
    extender reads, the read-only helpers ([RouteClusterNames], [getSNI],
    [filterChainTProxyMatch]), the three listener sub-orchestrators and the
    top-level [Extend] loop, followed by the properties proved about them. *)

From Stdlib Require Import Ascii.
From Stdlib Require String.
From stdpp Require Import base option list strings gmap fin_maps fin_sets.

#[local] Set Warnings "-clear-no-such-hyp,-register-all".
Open Scope string_scope.
Open Scope list_scope.

(** ** Route tables (envoy/config/route/v3)

    Only the fields the extender reads are kept.  A protobuf [oneof] is an
    inductive type wrapped in [option] (an unset oneof is the nil interface),
    and a singular message field is an [option] (a nil pointer). *)

Record WeightedCluster_ClusterWeight := {
  cw_Name : string;
  cw_Weight : option N;
}.

Record WeightedCluster := {
  wc_Clusters : list WeightedCluster_ClusterWeight;
}.

Inductive RouteAction_ClusterSpecifier :=
  | RouteAction_Cluster (Cluster : string)
  | RouteAction_ClusterHeader (ClusterHeader : string)
  | RouteAction_WeightedClusters (WeightedClusters : option WeightedCluster).

Record RouteAction := {
  ClusterSpecifier : option RouteAction_ClusterSpecifier;
}.

Inductive Route_Action :=
  | Route_Route (Route : option RouteAction)
  | Route_Redirect
  | Route_DirectResponse.

Record Route := {
  route_Name : string;
  Action : option Route_Action;
}.

Record VirtualHost := {
  vh_Name : string;
  Routes : list Route;
}.

Record RouteConfiguration := {
  rc_Name : string;
  VirtualHosts : list VirtualHost;
}.

(** The generated getters are nil-safe: they return the zero value when the
    oneof holds another case. *)
Definition GetRoute (route : Route) : option RouteAction :=
  match Action route with
  | Some (Route_Route r) => r
  | _ => None
  end.

Definition GetCluster (r : RouteAction) : string :=
  match ClusterSpecifier r with
  | Some (RouteAction_Cluster c) => c
  | _ => ""
  end.

Definition GetWeightedClusters (r : RouteAction) : option WeightedCluster :=
  match ClusterSpecifier r with
  | Some (RouteAction_WeightedClusters wc) => wc
  | _ => None
  end.

Definition GetClusters (wc : WeightedCluster) : list WeightedCluster_ClusterWeight :=
  wc_Clusters wc.

(** ** RouteClusterNames

    A Go [map[string]struct{}] is a [gset string]; the nil map returned for a
    nil route is [None].  The three nested [for ... range] loops are left
    folds over the accumulator [clusterNames]. *)

Definition weightedClusterNames (clusterNames : gset string)
    (cs : list WeightedCluster_ClusterWeight) : gset string :=
  foldl (fun clusterNames c =>
           if decide (cw_Name c = "") then clusterNames
           else {[ cw_Name c ]} ∪ clusterNames)
        clusterNames cs.

Definition routeNames (clusterNames : gset string) (route : Route) : gset string :=
  match GetRoute route with
  | None => clusterNames
  | Some r =>
      let clusterNames :=
        if decide (GetCluster r = "") then clusterNames
        else {[ GetCluster r ]} ∪ clusterNames in
      match GetWeightedClusters r with
      | None => clusterNames
      | Some wc => weightedClusterNames clusterNames (GetClusters wc)
      end
  end.

Definition RouteClusterNames (route : option RouteConfiguration) : option (gset string) :=
  match route with
  | None => None
  | Some route =>
      Some (foldl (fun clusterNames virtualHost =>
                     foldl routeNames clusterNames (Routes virtualHost))
                  ∅ (VirtualHosts route))
  end.

(** The spec's wording of the same set: the route's single cluster name if
    set, and every named member of its weighted-cluster set if set, over every
    route of every virtual host. *)
Definition route_targets (route : Route) (x : string) : Prop :=
  x ≠ "" ∧
  ∃ r, GetRoute route = Some r ∧
       (GetCluster r = x ∨
        ∃ wc c, GetWeightedClusters r = Some wc ∧ c ∈ GetClusters wc ∧ cw_Name c = x).

Definition table_reaches (rc : RouteConfiguration) (x : string) : Prop :=
  ∃ vh route, vh ∈ VirtualHosts rc ∧ route ∈ Routes vh ∧ route_targets route x.

Definition without_routes (vh : VirtualHost) : VirtualHost :=
  {| vh_Name := vh_Name vh; Routes := [] |}.

Definition single_cluster_route (name : string) : Route :=
  {| route_Name := "";
     Action := Some (Route_Route (Some
       {| ClusterSpecifier := Some (RouteAction_Cluster name) |})) |}.

Definition weighted_route (ws : list (string * N)) : Route :=
  {| route_Name := "";
     Action := Some (Route_Route (Some
       {| ClusterSpecifier := Some (RouteAction_WeightedClusters (Some
            {| wc_Clusters :=
                 (fun w => {| cw_Name := w.1; cw_Weight := Some w.2 |}) <$> ws |})) |})) |}.

Definition db_table : RouteConfiguration :=
  {| rc_Name := "db";
     VirtualHosts :=
       [ {| vh_Name := "db";
            Routes := [ single_cluster_route "db.default";
                        weighted_route [("a", 50%N); ("b", 50%N)] ] |} ] |}.

(** ** Listeners (envoy/config/listener/v3) *)

Record CidrRange := {
  AddressPrefix : string;
  PrefixLen : option N;
}.

Record FilterChainMatch_t := {
  ServerNames : list string;
  PrefixRanges : list CidrRange;
}.

Record Any := {
  TypeUrl : string;
  Value : string;
}.

Record Filter := {
  filter_Name : string;
  TypedConfig : option Any;
}.

(** [FilterChainMatch] is a pointer field: [None] is the nil pointer. *)
Record FilterChain := {
  FilterChainMatch : option FilterChainMatch_t;
  Filters : list Filter;
}.

(** A listener holds [[]*FilterChain]: pointers into a store of filter-chain
    objects.  The sub-orchestrators assign [filterChain.Filters] through those
    pointers, so the chains live in a heap and the listener keeps their
    addresses.  An address without an object stands for the nil pointer.  The
    listener struct itself is never written, so it is kept by value. *)
Abbreviation loc := positive.

Record Listener := {
  Name : string;
  FilterChains : list loc;
}.

(** ** Clusters (envoy/config/cluster/v3): never inspected by the extender. *)
Record Cluster := {
  cluster_Name : string;
  cluster_Config : string;
}.

(** ** proto.Message values held by the index, by dynamic type.  [MOther]
    carries the Go type name printed by [%T]. *)
Inductive Message :=
  | MCluster (resource : Cluster)
  | MListener (resource : Listener)
  | MRoute (resource : RouteConfiguration)
  | MOther (goType : string).

(** xdscommon.IndexedResources: resource-kind tag, then name or SNI, then the
    payload.  A missing inner map is Go's nil map. *)
Record IndexedResources := {
  Index : gmap string (gmap string Message);
}.

(** The constants of package xdscommon that the extender names.  Their
    declarations are outside this file, so they are parameters; the three type
    URLs are pairwise different. *)
Class XdsCommon := {
  ListenerType : string;
  RouteType : string;
  ClusterType : string;
  LocalAppClusterName : string;
  OutboundListenerName : string;
  PublicListenerName : string;
  types_NoDup : NoDup [ListenerType; RouteType; ClusterType];
}.

(** api.ServiceKind, a string enum of which two values are named here. *)
Inductive ServiceKind :=
  | ServiceKindTerminatingGateway
  | ServiceKindConnectProxy
  | ServiceKindOther (kind : string).

Record UpstreamData := {
  VIP : string;
}.

(** RuntimeConfig is declared outside this file.  Its fields [Kind],
    [ServiceName] and [Upstreams] are read directly by the extender; the
    results of its methods [IsUpstream()], [MatchesUpstreamServiceSNI(sni)]
    and [EnvoyID()] are taken as given. *)
Record RuntimeConfig := {
  Kind : ServiceKind;
  ServiceName : string;
  Upstreams : gmap string UpstreamData;
  IsUpstream : bool;
  MatchesUpstreamServiceSNI : string → bool;
  EnvoyID : string;
}.

(** ** Errors

    Go [error] values as the extender builds them: an opaque error of the
    extension, [fmt.Errorf("<format>: %w", err)], [fmt.Errorf("<format>: %T", x)]
    and go-multierror's [*Error].  A nil [error] is [None]. *)
Inductive error :=
  | ErrorString (text : string)
  | Errorf (format : string) (err : error)
  | ErrorfT (format : string) (goType : string)
  | MultiError (Errors : list error).

(** multierror.Append(err, e): the accumulator becomes a [*multierror.Error]
    and [e] is appended, flattened when it is itself a [*multierror.Error]. *)
Definition multierror_Append (err : option error) (e : error) : option error :=
  let flat := match e with MultiError es => es | _ => [e] end in
  match err with
  | Some (MultiError errors) => Some (MultiError (errors ++ flat))
  | Some err => Some (MultiError (err :: flat))
  | None => Some (MultiError flat)
  end.

(** ** BasicExtension

    The interface every user of the extender implements.  A patch call is a
    function of the configuration and the resource to the triple
    (resource, changed, error). *)
Record BasicExtension := {
  CanApply : RuntimeConfig → bool;
  PatchRoute : RuntimeConfig → RouteConfiguration → RouteConfiguration * bool * option error;
  PatchCluster : RuntimeConfig → Cluster → Cluster * bool * option error;
  PatchFilter : RuntimeConfig → Filter → Filter * bool * option error;
}.

Record BasicEnvoyExtender := {
  Extension : BasicExtension;
}.

(** ** The effects of a pass

    A computation reads and writes the filter-chain heap, may panic (nil
    pointer dereference, assignment to an entry of a nil map), and makes calls
    to the extension, which are recorded in order.  The heap and the calls made
    so far are kept when a panic unwinds. *)
Inductive Call :=
  | CallPatchCluster (nameOrSNI : string) (resource : Cluster)
  | CallPatchRoute (nameOrSNI : string) (resource : RouteConfiguration)
  | CallPatchFilter (filter : Filter).

Inductive Res (A : Type) :=
  | Ok (a : A)
  | Panic (reason : string).
Arguments Ok {A} a.
Arguments Panic {A} reason.

Definition M (A : Type) : Type :=
  gmap loc FilterChain → Res A * gmap loc FilterChain * list Call.

#[export] Instance M_ret : MRet M := λ A a h, (Ok a, h, []).

#[export] Instance M_bind : MBind M := λ A B f m h,
  match m h with
  | (Ok a, h1, t1) => let '(r, h2, t2) := f a h1 in (r, h2, t1 ++ t2)
  | (Panic reason, h1, t1) => (Panic reason, h1, t1)
  end.

Definition result {A} (x : Res A * gmap loc FilterChain * list Call) : Res A := x.1.1.
Definition heap {A} (x : Res A * gmap loc FilterChain * list Call) : gmap loc FilterChain := x.1.2.
Definition calls {A} (x : Res A * gmap loc FilterChain * list Call) : list Call := x.2.

Definition nil_dereference : string :=
  "runtime error: invalid memory address or nil pointer dereference".
Definition nil_map_assignment : string :=
  "assignment to entry in nil map".

Definition panic {A} (reason : string) : M A := λ h, (Panic reason, h, []).

Definition liftRes {A} (r : Res A) : M A := λ h, (r, h, []).

(** Reading a pointer variable, without following it. *)
Definition load (p : loc) : M (option FilterChain) := λ h, (Ok (h !! p), h, []).

(** Following a pointer to read a field. *)
Definition deref (p : loc) : M FilterChain := λ h,
  match h !! p with
  | Some chain => (Ok chain, h, [])
  | None => (Panic nil_dereference, h, [])
  end.

(** [filterChain.Filters = filters] *)
Definition set_Filters (p : loc) (filters : list Filter) : M unit := λ h,
  match h !! p with
  | Some chain =>
      (Ok (), <[p := {| FilterChainMatch := FilterChainMatch chain; Filters := filters |}]> h, [])
  | None => (Panic nil_dereference, h, [])
  end.

Definition call (c : Call) : M unit := λ h, (Ok (), h, [c]).

(** [for _, x := range l] with loop-carried variables [a]. *)
Fixpoint forRange {A B} (body : A → B → M A) (a : A) (l : list B) : M A :=
  match l with
  | [] => mret a
  | x :: l => a ← body a x; forRange body a l
  end.

(** ** getSNI *)
Definition getSNI (chain : option FilterChain) : string :=
  match chain with
  | None => ""
  | Some chain =>
      match FilterChainMatch chain with
      | None => ""
      | Some m =>
          match ServerNames m with
          | [] => ""
          | sni :: _ => sni
          end
      end
  end.

(** ** filterChainTProxyMatch

    [filterChain.FilterChainMatch.PrefixRanges] follows two pointers with plain
    field selectors, so either being nil panics. *)
Fixpoint prefixRangesMatch (vip : string) (prefixRanges : list CidrRange) : bool :=
  match prefixRanges with
  | [] => false
  | prefixRange :: prefixRanges =>
      if decide (vip = AddressPrefix prefixRange) then true
      else prefixRangesMatch vip prefixRanges
  end.

Definition filterChainTProxyMatch (vip : string) (filterChain : option FilterChain) : Res bool :=
  match filterChain with
  | None => Panic nil_dereference
  | Some filterChain =>
      match FilterChainMatch filterChain with
      | None => Panic nil_dereference
      | Some m => Ok (prefixRangesMatch vip (PrefixRanges m))
      end
  end.

(** strings.IndexByte: the index of the first occurrence of [c], Go's -1 being
    [None]. *)
Fixpoint IndexByte (s : string) (c : Ascii.ascii) : option nat :=
  match s with
  | EmptyString => None
  | String a s => if decide (a = c) then Some 0 else S <$> IndexByte s c
  end.

Section extender.
Context `{XdsCommon}.
Variable b : BasicEnvoyExtender.
Variable config : RuntimeConfig.

(** The filter loop that the three listener sub-orchestrators share word
    for word; [filters], [patched] and [resultErr] are its loop-carried
    variables. *)
Definition patchFilter (acc : list Filter * bool * option error) (filter : Filter)
    : M (list Filter * bool * option error) :=
  let '(filters, patched, resultErr) := acc in
  call (CallPatchFilter filter);;
  let '(newFilter, ok, err) := PatchFilter (Extension b) config filter in
  match err with
  | Some err =>
      mret (filters ++ [filter], patched,
            multierror_Append resultErr (Errorf "error patching listener filter" err))
  | None =>
      if ok then mret (filters ++ [newFilter], true, resultErr)
      else mret (filters ++ [filter], patched, resultErr)
  end.

Definition patchChainFilters (filterChain : loc) (patched : bool) (resultErr : option error)
    : M (bool * option error) :=
  chain ← deref filterChain;
  '(filters, patched, resultErr) ←
    forRange patchFilter ([], patched, resultErr) (Filters chain);
  set_Filters filterChain filters;;
  mret (patched, resultErr).

(** *** patchTerminatingGatewayListener *)
Definition terminatingGatewayChain (acc : bool * option error) (filterChain : loc)
    : M (bool * option error) :=
  let '(patched, resultErr) := acc in
  chain ← load filterChain;
  let sni := getSNI chain in
  if decide (sni = "") then mret (patched, resultErr)
  else if negb (MatchesUpstreamServiceSNI config sni) then mret (patched, resultErr)
  else patchChainFilters filterChain patched resultErr.

Definition patchTerminatingGatewayListener (l : Listener)
    : M (Listener * bool * option error) :=
  if negb (IsUpstream config) then mret (l, false, None)
  else
    '(patched, resultErr) ← forRange terminatingGatewayChain (false, None) (FilterChains l);
    mret (l, patched, resultErr).

(** *** patchTProxyListener

    [config.Upstreams[config.ServiceName].VIP]: a missing entry reads as the
    zero value. *)
Definition upstreamVIP : string :=
  match Upstreams config !! ServiceName config with
  | Some u => VIP u
  | None => ""
  end.

Definition tproxyChain (vip : string) (acc : bool * option error) (filterChain : loc)
    : M (bool * option error) :=
  let '(patched, resultErr) := acc in
  chain ← load filterChain;
  match_ ← liftRes (filterChainTProxyMatch vip chain);
  if negb match_ then mret (patched, resultErr)
  else patchChainFilters filterChain patched resultErr.

Definition patchTProxyListener (l : Listener) : M (Listener * bool * option error) :=
  let vip := upstreamVIP in
  '(patched, resultErr) ← forRange (tproxyChain vip) (false, None) (FilterChains l);
  mret (l, patched, resultErr).

(** *** patchConnectProxyListener *)
Definition connectProxyChain (acc : bool * option error) (filterChain : loc)
    : M (bool * option error) :=
  let '(patched, resultErr) := acc in
  patchChainFilters filterChain patched resultErr.

Definition patchConnectProxyListener (l : Listener) : M (Listener * bool * option error) :=
  let envoyID :=
    match IndexByte (Name l) ":"%char with
    | Some i => String.substring 0 i (Name l)
    | None => ""
    end in
  if IsUpstream config && bool_decide (envoyID = OutboundListenerName) then
    patchTProxyListener l
  else if IsUpstream config && negb (bool_decide (envoyID = EnvoyID config)) then
    mret (l, false, None)
  else if negb (IsUpstream config) && negb (bool_decide (envoyID = PublicListenerName)) then
    mret (l, false, None)
  else
    '(patched, resultErr) ← forRange connectProxyChain (false, None) (FilterChains l);
    mret (l, patched, resultErr).

(** *** patchListener *)
Definition patchListener (l : Listener) : M (Listener * bool * option error) :=
  match Kind config with
  | ServiceKindTerminatingGateway => patchTerminatingGatewayListener l
  | ServiceKindConnectProxy => patchConnectProxyListener l
  | _ => mret (l, false, None)
  end.

(** *** Extend *)

(** [resources.Index[indexType][nameOrSNI] = msg] *)
Definition assign (resources : IndexedResources) (indexType nameOrSNI : string)
    (msg : Message) : M IndexedResources :=
  match Index resources !! indexType with
  | None => panic nil_map_assignment
  | Some m =>
      mret {| Index := <[indexType := <[nameOrSNI := msg]> m]> (Index resources) |}
  end.

(** One turn of the inner loop, on the entry [nameOrSNI, msg]; the switch is
    on the dynamic type of [msg]. *)
Definition extendEntry (acc : IndexedResources * option error) (entry : string * Message)
    : M (IndexedResources * option error) :=
  let '(resources, resultErr) := acc in
  let '(nameOrSNI, msg) := entry in
  match msg with
  | MCluster resource =>
      if IsUpstream config && negb (MatchesUpstreamServiceSNI config nameOrSNI) then
        mret (resources, resultErr)
      else if negb (IsUpstream config) && bool_decide (nameOrSNI = LocalAppClusterName) then
        mret (resources, resultErr)
      else
        call (CallPatchCluster nameOrSNI resource);;
        let '(newCluster, patched, err) := PatchCluster (Extension b) config resource in
        match err with
        | Some err =>
            mret (resources, multierror_Append resultErr (Errorf "error patching cluster" err))
        | None =>
            if patched then
              resources ← assign resources ClusterType nameOrSNI (MCluster newCluster);
              mret (resources, resultErr)
            else mret (resources, resultErr)
        end
  | MListener resource =>
      '(newListener, patched, err) ← patchListener resource;
      match err return M (IndexedResources * option error) with
      | Some err =>
          mret (resources, multierror_Append resultErr (Errorf "error patching listener" err))
      | None =>
          if patched : bool then
            resources ← assign resources ListenerType nameOrSNI (MListener newListener);
            mret (resources, resultErr)
          else mret (resources, resultErr)
      end
  | MRoute resource =>
      let matchesEnvoyID := bool_decide (EnvoyID config = nameOrSNI) in
      if IsUpstream config && negb (MatchesUpstreamServiceSNI config nameOrSNI)
           && negb matchesEnvoyID then
        mret (resources, resultErr)
      else if negb (IsUpstream config) then
        mret (resources, resultErr)
      else
        call (CallPatchRoute nameOrSNI resource);;
        let '(newRoute, patched, err) := PatchRoute (Extension b) config resource in
        match err with
        | Some err =>
            mret (resources, multierror_Append resultErr (Errorf "error patching route" err))
        | None =>
            if patched then
              resources ← assign resources RouteType nameOrSNI (MRoute newRoute);
              mret (resources, resultErr)
            else mret (resources, resultErr)
        end
  | MOther goType =>
      mret (resources, multierror_Append resultErr (ErrorfT "unsupported type was skipped" goType))
  end.

(** Go leaves the order of a map range unspecified: [range] is any
    enumeration of the entries of the map. *)
Variable range : gmap string Message → list (string * Message).

Definition extendType (acc : IndexedResources * option error) (indexType : string)
    : M (IndexedResources * option error) :=
  let '(resources, resultErr) := acc in
  forRange extendEntry (resources, resultErr)
           (range (default ∅ (Index resources !! indexType))).

Definition Extend (resources : IndexedResources) : M (IndexedResources * option error) :=
  match Kind config with
  | ServiceKindTerminatingGateway | ServiceKindConnectProxy =>
      if negb (CanApply (Extension b) config) then mret (resources, None)
      else forRange extendType (resources, None) [ListenerType; RouteType; ClusterType]
  | _ => mret (resources, None)
  end.

End extender.

(** ** What one pass over a filter sequence computes

    The outcome of the filter loop, filter by filter: the filter kept in the
    rebuilt sequence, whether it counts as a change, and the error recorded for
    it. *)
Section filter_outcomes.
Variable b : BasicEnvoyExtender.
Variable config : RuntimeConfig.

Definition keptFilter (filter : Filter) : Filter :=
  match PatchFilter (Extension b) config filter with
  | (newFilter, true, None) => newFilter
  | _ => filter
  end.

Definition filterChanged (filter : Filter) : bool :=
  match PatchFilter (Extension b) config filter with
  | (_, true, None) => true
  | _ => false
  end.

Definition filterError (filter : Filter) : option error :=
  match PatchFilter (Extension b) config filter with
  | (_, _, Some err) => Some (Errorf "error patching listener filter" err)
  | _ => None
  end.

Definition appendAll (resultErr : option error) (errs : list error) : option error :=
  foldl multierror_Append resultErr errs.

End filter_outcomes.

(** ** A concrete setting for the worked examples: the values the constants
    have in package xdscommon. *)
Lemma xds_v3_types_NoDup :
  NoDup [ "type.googleapis.com/envoy.config.listener.v3.Listener";
          "type.googleapis.com/envoy.config.route.v3.RouteConfiguration";
          "type.googleapis.com/envoy.config.cluster.v3.Cluster" ].
Proof. compute_done. Qed.

#[export] Instance xds_v3 : XdsCommon := {|
  ListenerType := "type.googleapis.com/envoy.config.listener.v3.Listener";
  RouteType := "type.googleapis.com/envoy.config.route.v3.RouteConfiguration";
  ClusterType := "type.googleapis.com/envoy.config.cluster.v3.Cluster";
  LocalAppClusterName := "local_app";
  OutboundListenerName := "outbound_listener";
  PublicListenerName := "public_listener";
  types_NoDup := xds_v3_types_NoDup;
|}.

Definition prefix_chain (prefix : string) (filters : list Filter) : FilterChain :=
  {| FilterChainMatch :=
       Some {| ServerNames := [];
               PrefixRanges := [ {| AddressPrefix := prefix; PrefixLen := Some 32%N |} ] |};
     Filters := filters |}.

Definition sni_chain (names : list string) (filters : list Filter) : FilterChain :=
  {| FilterChainMatch := Some {| ServerNames := names; PrefixRanges := [] |};
     Filters := filters |}.

Definition unmatched_chain (filters : list Filter) : FilterChain :=
  {| FilterChainMatch := None; Filters := filters |}.

Definition tcp_filter (name : string) : Filter :=
  {| filter_Name := name; TypedConfig := None |}.

(** An extension that changes nothing and never fails. *)
Definition idle_extension : BasicExtension :=
  {| CanApply := λ _, true;
     PatchRoute := λ _ r, (r, false, None);
     PatchCluster := λ _ c, (c, false, None);
     PatchFilter := λ _ f, (f, false, None) |}.

(** An extension that marks what it patches and fails on the resources
    named "bad". *)
Definition marking_extension : BasicExtension :=
  {| CanApply := λ _, true;
     PatchRoute := λ _ r,
       if decide (rc_Name r = "bad") then (r, false, Some (ErrorString "bad route"))
       else ({| rc_Name := rc_Name r; VirtualHosts := [] |}, true, None);
     PatchCluster := λ _ c,
       if decide (cluster_Name c = "bad") then (c, false, Some (ErrorString "bad cluster"))
       else ({| cluster_Name := cluster_Name c; cluster_Config := "patched" |}, true, None);
     PatchFilter := λ _ f,
       if decide (filter_Name f = "bad") then (f, false, Some (ErrorString "bad filter"))
       else ({| filter_Name := filter_Name f;
                TypedConfig := Some {| TypeUrl := "patched"; Value := "" |} |}, true, None) |}.

Definition upstream_config (kind : ServiceKind) (snis : list string) : RuntimeConfig :=
  {| Kind := kind;
     ServiceName := "db";
     Upstreams := {[ "db" := {| VIP := "10.0.0.5" |} ]};
     IsUpstream := true;
     MatchesUpstreamServiceSNI := λ s, bool_decide (s ∈ snis);
     EnvoyID := "db" |}.

Definition named_cluster (name : string) : Cluster :=
  {| cluster_Name := name; cluster_Config := "" |}.

Definition named_route (name : string) : RouteConfiguration :=
  {| rc_Name := name; VirtualHosts := [ {| vh_Name := name; Routes := [] |} ] |}.

(** The entry of the index at a kind tag and a name. *)
Definition entry_at (resources : IndexedResources) (indexType nameOrSNI : string)
    : option Message :=
  Index resources !! indexType ≫= (.!! nameOrSNI).

(** A downstream connect-proxy resource set: the public listener, the local
    application cluster and one upstream cluster. *)
Definition downstream_resources : IndexedResources :=
  {| Index :=
       {[ ListenerType :=
            {[ "public_listener:0.0.0.0:20000" :=
                 MListener {| Name := "public_listener:0.0.0.0:20000";
                              FilterChains := [1%positive] |} ]};
          ClusterType :=
            {[ "local_app" := MCluster (named_cluster "local_app");
               "db.default.dc1.internal.consul" :=
                 MCluster (named_cluster "db.default.dc1.internal.consul") ]} ]} |}.

Definition downstream_heap : gmap loc FilterChain :=
  {[ 1%positive := sni_chain [] [tcp_filter "envoy.filters.network.tcp_proxy"] ]}.

(** An upstream resource set: one listener per upstream plus the outbound
    listener, two routes and three clusters. *)
Definition upstream_resources : IndexedResources :=
  {| Index :=
       {[ ListenerType :=
            {[ "db:127.0.0.1:9191" :=
                 MListener {| Name := "db:127.0.0.1:9191"; FilterChains := [1%positive] |};
               "outbound_listener:127.0.0.1:15001" :=
                 MListener {| Name := "outbound_listener:127.0.0.1:15001";
                              FilterChains := [2%positive; 3%positive] |} ]};
          RouteType :=
            {[ "db" := MRoute (named_route "db");
               "cache" := MRoute (named_route "cache") ]};
          ClusterType :=
            {[ "db.default.dc1.internal.consul" :=
                 MCluster (named_cluster "db.default.dc1.internal.consul");
               "bad.default.dc1.internal.consul" := MCluster (named_cluster "bad");
               "cache.default.dc1.internal.consul" :=
                 MCluster (named_cluster "cache.default.dc1.internal.consul") ]} ]} |}.

Definition upstream_heap : gmap loc FilterChain :=
  {[ 1%positive := sni_chain [] [tcp_filter "envoy.filters.network.tcp_proxy"];
     2%positive := prefix_chain "10.0.0.5" [tcp_filter "bad"; tcp_filter "tcp"];
     3%positive := prefix_chain "10.0.0.6" [tcp_filter "other"] ]}.

Definition db_snis : list string :=
  [ "db.default.dc1.internal.consul"; "bad.default.dc1.internal.consul" ].

Definition downstream_config (kind : ServiceKind) : RuntimeConfig :=
  {| Kind := kind;
     ServiceName := "web";
     Upstreams := ∅;
     IsUpstream := false;
     MatchesUpstreamServiceSNI := λ _, false;
     EnvoyID := "" |}.

(** ** The matching predicates, in the words of the spec

    Cluster: an upstream-scoped instance matches only identities that satisfy
    [MatchesUpstreamServiceSNI]; a downstream-scoped instance is barred from
    the local-service sentinel.  Route: only upstream-scoped instances, and the
    identity satisfies [MatchesUpstreamServiceSNI] or equals the discovery id. *)
Section scopes.
Context `{XdsCommon}.
Variable config : RuntimeConfig.

Definition clusterMatches (nameOrSNI : string) : bool :=
  if IsUpstream config then MatchesUpstreamServiceSNI config nameOrSNI
  else negb (bool_decide (nameOrSNI = LocalAppClusterName)).

Definition routeMatches (nameOrSNI : string) : bool :=
  IsUpstream config &&
  (MatchesUpstreamServiceSNI config nameOrSNI || bool_decide (EnvoyID config = nameOrSNI)).

Definition callInScope (c : Call) : Prop :=
  match c with
  | CallPatchCluster nameOrSNI _ => clusterMatches nameOrSNI = true
  | CallPatchRoute nameOrSNI _ => routeMatches nameOrSNI = true
  | CallPatchFilter _ => True
  end.

End scopes.

(** Transparent-proxy candidacy in the words of the spec: the address-prefix
    match set of the chain contains an entry whose prefix string equals the
    VIP. *)
Definition tproxyCandidate (vip : string) (chain : FilterChain) : Prop :=
  ∃ m prefixRange,
    FilterChainMatch chain = Some m ∧
    prefixRange ∈ PrefixRanges m ∧
    AddressPrefix prefixRange = vip.

(** Terminating-gateway candidacy in the words of the spec: the chain declares
    a first TLS server name, which is not empty and satisfies
    [MatchesUpstreamServiceSNI]. *)
Definition tgCandidate (config : RuntimeConfig) (chain : FilterChain) : Prop :=
  ∃ m sni rest,
    FilterChainMatch chain = Some m ∧
    ServerNames m = sni :: rest ∧
    sni ≠ "" ∧
    MatchesUpstreamServiceSNI config sni = true.

(** ** The chain loops, uniformly

    The three chain loops differ only in how a chain is selected.  [chainBody]
    is one turn of such a loop for a selection [sel]; the selected chain has
    its filter sequence rebuilt by [patchChainFilters]. *)
Section chain_outcomes.
Variable b : BasicEnvoyExtender.
Variable config : RuntimeConfig.

Definition chainBody (sel : option FilterChain → Res bool) (acc : bool * option error)
    (filterChain : loc) : M (bool * option error) :=
  let '(patched, resultErr) := acc in
  chain ← load filterChain;
  go ← liftRes (sel chain);
  if go : bool then patchChainFilters b config filterChain patched resultErr
  else mret (patched, resultErr).

(** Terminating gateway: the first declared server name is not empty and
    satisfies [MatchesUpstreamServiceSNI]. *)
Definition tgSelects (chain : option FilterChain) : Res bool :=
  Ok (negb (bool_decide (getSNI chain = "")) &&
      MatchesUpstreamServiceSNI config (getSNI chain)).

(** The filters of the chain at [p] that a loop with selection [sel] offers
    to PatchFilter. *)
Definition offeredAt (sel : option FilterChain → Res bool) (h : gmap loc FilterChain)
    (p : loc) : list Filter :=
  match sel (h !! p), h !! p with
  | Ok true, Some chain => Filters chain
  | _, _ => []
  end.

Definition patchedChain (chain : FilterChain) : FilterChain :=
  {| FilterChainMatch := FilterChainMatch chain;
     Filters := keptFilter b config <$> Filters chain |}.

Definition patchChainAt (sel : option FilterChain → Res bool) (h : gmap loc FilterChain)
    (p : loc) : gmap loc FilterChain :=
  match sel (h !! p), h !! p with
  | Ok true, Some chain => <[p := patchedChain chain]> h
  | _, _ => h
  end.

Definition patchChains (sel : option FilterChain → Res bool) (h : gmap loc FilterChain)
    (ps : list loc) : gmap loc FilterChain :=
  foldl (patchChainAt sel) h ps.

(** A turn on [p] does not panic: the selection answers, and a selected chain
    is not nil. *)
Definition turnsSafely (sel : option FilterChain → Res bool) (h : gmap loc FilterChain)
    (p : loc) : Prop :=
  match sel (h !! p) with
  | Ok true => is_Some (h !! p)
  | Ok false => True
  | Panic _ => False
  end.

(** The filters a terminating-gateway pass offers for the listener [l]: those
    of its selected chains, chain by chain and in order. *)
Definition tgOffered (h : gmap loc FilterChain) (l : Listener) : list Filter :=
  FilterChains l ≫= offeredAt tgSelects h.

(** The filters a chain loop with selection [sel] offers over the chains [ps],
    turn by turn.  A turn reads the chain as the turns before it left it, so a
    chain that the listener holds twice is read again after it was rebuilt;
    a turn that panics ends the loop. *)
Fixpoint offeredBy (sel : option FilterChain → Res bool) (h : gmap loc FilterChain)
    (ps : list loc) : list Filter :=
  match ps with
  | [] => []
  | p :: ps =>
      match sel (h !! p), h !! p with
      | Ok true, Some chain =>
          Filters chain ++ offeredBy sel (<[p := patchedChain chain]> h) ps
      | Ok false, _ => offeredBy sel h ps
      | _, _ => []
      end
  end.

End chain_outcomes.

(** A connect-proxy configuration for the upstream "db" whose virtual IP is
    [vip], and the outbound listener with one filter chain. *)
Definition vip_config (vip : string) : RuntimeConfig :=
  {| Kind := ServiceKindConnectProxy;
     ServiceName := "db";
     Upstreams := {[ "db" := {| VIP := vip |} ]};
     IsUpstream := true;
     MatchesUpstreamServiceSNI := λ s, bool_decide (s = "db.default.dc1.internal.consul");
     EnvoyID := "db" |}.

Definition outbound_listener : Listener :=
  {| Name := "outbound_listener:127.0.0.1:15001"; FilterChains := [1%positive] |}.

(** A terminating-gateway listener that holds the same filter chain twice. *)
Definition repeated_listener : Listener :=
  {| Name := "default:1.2.3.4:8443"; FilterChains := [1%positive; 1%positive] |}.

(** An extension whose PatchFilter reports a change together with an error. *)
Definition changed_with_error_extension : BasicExtension :=
  {| CanApply := λ _, true;
     PatchRoute := λ _ r, (r, false, None);
     PatchCluster := λ _ c, (c, false, None);
     PatchFilter := λ _ f, (f, true, Some (ErrorString "patch failed")) |}.

(** The terminating-gateway scenario of the spec: a listener with one chain for
    "svc.ns.dc.internal" and one for another server name. *)
Definition gateway_listener : Listener :=
  {| Name := "default:1.2.3.4:8443"; FilterChains := [1%positive; 2%positive] |}.

Definition gateway_heap : gmap loc FilterChain :=
  {[ 1%positive := sni_chain ["svc.ns.dc.internal"] [tcp_filter "tcp"; tcp_filter "bad"];
     2%positive := sni_chain ["other.ns.dc.internal"] [tcp_filter "other"] ]}.

Definition gateway_config : RuntimeConfig :=
  upstream_config ServiceKindTerminatingGateway ["svc.ns.dc.internal"].

(** ** The aggregate error

    The errors a [*multierror.Error] holds ([nil] holds none), and what it
    means for an aggregate to mention an error: the error is the aggregate
    itself, or is mentioned by what [fmt.Errorf] wraps, or by one of the errors
    a [*multierror.Error] holds. *)
Definition errorsOf (err : option error) : list error :=
  match err with
  | None => []
  | Some (MultiError es) => es
  | Some e => [e]
  end.

Inductive mentions : error → error → Prop :=
  | mentions_refl e : mentions e e
  | mentions_Errorf format e e' : mentions e e' → mentions (Errorf format e) e'
  | mentions_MultiError es e e' : e ∈ es → mentions e e' → mentions (MultiError es) e'.

Definition Mentioned (err : option error) (e : error) : Prop :=
  ∃ e0, e0 ∈ errorsOf err ∧ mentions e0 e.

Definition notMulti (e : error) : Prop :=
  match e with
  | MultiError _ => False
  | _ => True
  end.

Section call_errors.
Variable b : BasicEnvoyExtender.
Variable config : RuntimeConfig.

(** The error the extension returned for a call, and the error the extender
    records for it. *)
Definition callError (c : Call) : option error :=
  match c with
  | CallPatchCluster _ resource => (PatchCluster (Extension b) config resource).2
  | CallPatchRoute _ resource => (PatchRoute (Extension b) config resource).2
  | CallPatchFilter filter => (PatchFilter (Extension b) config filter).2
  end.

Definition recordedError (c : Call) : option error :=
  match c with
  | CallPatchCluster _ _ => Errorf "error patching cluster" <$> callError c
  | CallPatchRoute _ _ => Errorf "error patching route" <$> callError c
  | CallPatchFilter _ => Errorf "error patching listener filter" <$> callError c
  end.

(** What a turn on a payload [msg] that made the calls [t] does to the
    aggregate: what was mentioned stays mentioned, the error of every call and
    the unsupported type are mentioned, and nothing is added when no call
    failed and the type is supported. *)
Definition turnAccounts (r r' : option error) (t : list Call) (msg : Message) : Prop :=
  (∀ e, Mentioned r e → Mentioned r' e) ∧
  (∀ c e, c ∈ t → callError c = Some e → Mentioned r' e) ∧
  (∀ goType, msg = MOther goType →
     Mentioned r' (ErrorfT "unsupported type was skipped" goType)) ∧
  ((∀ c, c ∈ t → callError c = None) → (∀ goType, msg ≠ MOther goType) → r' = r).

(** The same for a run of turns from the loop-carried state [a] to [a']. *)
Definition passMentions (a a' : IndexedResources * option error) (t : list Call) : Prop :=
  (∀ e, Mentioned a.2 e → Mentioned a'.2 e) ∧
  (∀ c e, c ∈ t → callError c = Some e → Mentioned a'.2 e).

End call_errors.

(** A property of calls that every PatchFilter call has. *)
Definition filterCallsOnly (I : Call → Prop) : Prop := ∀ f, I (CallPatchFilter f).


(** ** Well-formed resource sets *)
Section wellformed.
Context `{XdsCommon}.

Definition indexTypes : list string := [ListenerType; RouteType; ClusterType].

Definition indexOf (resources : IndexedResources) (indexType : string)
    : gmap string Message :=
  default ∅ (Index resources !! indexType).

(** The kind tag and the dynamic type of the payload agree; a payload of an
    unsupported type agrees with no tag and is reported wherever it is. *)
Definition tagAgrees (indexType : string) (msg : Message) : Prop :=
  match msg with
  | MCluster _ => indexType = ClusterType
  | MListener _ => indexType = ListenerType
  | MRoute _ => indexType = RouteType
  | MOther _ => True
  end.

#[export] Instance tagAgrees_dec indexType msg : Decision (tagAgrees indexType msg).
Proof. destruct msg; simpl; apply _. Defined.

Definition wellTagged (resources : IndexedResources) : Prop :=
  Forall (λ indexType,
            map_Forall (λ _ msg, tagAgrees indexType msg) (indexOf resources indexType))
         indexTypes.

(** The entries of the three maps in the order a pass visits them. *)
Definition visited (range : gmap string Message → list (string * Message))
    (resources : IndexedResources) : list (string * Message) :=
  indexTypes ≫= (λ indexType, range (indexOf resources indexType)).

(** The slot of the index a turn on an entry may write. *)
Definition slotOf (entry : string * Message) : option (string * string) :=
  match entry.2 with
  | MCluster _ => Some (ClusterType, entry.1)
  | MListener _ => Some (ListenerType, entry.1)
  | MRoute _ => Some (RouteType, entry.1)
  | MOther _ => None
  end.

Definition chainsOf (entry : string * Message) : list loc :=
  match entry.2 with
  | MListener l => FilterChains l
  | _ => []
  end.

(** Every filter chain belongs to one listener of the Listener index and
    occurs once in it. *)
Definition chainsUnshared (resources : IndexedResources) : Prop :=
  NoDup (map_to_list (indexOf resources ListenerType) ≫= chainsOf).

(** No filter chain of a listener is nil or lacks its match clause. *)
Definition chainsMatched (resources : IndexedResources) (h : gmap loc FilterChain) : Prop :=
  Forall (λ p, is_Some (h !! p ≫= FilterChainMatch))
         (map_to_list (indexOf resources ListenerType) ≫= chainsOf).

End wellformed.

(** ** Outcomes of the patch calls on clusters and routes *)
Section resource_outcomes.
Variable b : BasicEnvoyExtender.
Variable config : RuntimeConfig.

Definition keptCluster (resource : Cluster) : Cluster :=
  match PatchCluster (Extension b) config resource with
  | (newCluster, true, None) => newCluster
  | _ => resource
  end.

Definition keptRoute (resource : RouteConfiguration) : RouteConfiguration :=
  match PatchRoute (Extension b) config resource with
  | (newRoute, true, None) => newRoute
  | _ => resource
  end.

End resource_outcomes.

(** A resource set whose Listener map holds a payload of no supported type. *)
Definition stray_resources : IndexedResources :=
  {| Index :=
       {[ ListenerType :=
            {[ "secret" := MOther "*envoy_extensions_transport_sockets_tls_v3.Secret" ]};
          ClusterType :=
            {[ "bad.default.dc1.internal.consul" := MCluster (named_cluster "bad") ]} ]} |}.

(** Whether a run ended normally. *)
Definition ranOk {A} (x : Res A * gmap loc FilterChain * list Call) : bool :=
  match x.1.1 with
  | Ok _ => true
  | Panic _ => false
  end.

(** ** The shape of the filter-chain heap

    Two heaps have the same shape when they hold chains at the same
    addresses, with the same match clause and the same number of filters. *)
Definition sameChainShape (chain chain' : FilterChain) : Prop :=
  FilterChainMatch chain' = FilterChainMatch chain ∧
  length (Filters chain') = length (Filters chain).

Definition sameShape (h h' : gmap loc FilterChain) : Prop :=
  ∀ p, match h !! p, h' !! p with
       | Some chain, Some chain' => sameChainShape chain chain'
       | None, None => True
       | _, _ => False
       end.

(** ** Filter chains rebuilt in place

    [rebuiltChain k chain] is the chain after [k] rebuilds of its filter
    sequence; a heap is rebuilt from another when it holds, at the same
    addresses, the same chains rebuilt some number of times. *)
Section rebuilds.
Variable b : BasicEnvoyExtender.
Variable config : RuntimeConfig.

Definition rebuiltChain (k : nat) (chain : FilterChain) : FilterChain :=
  {| FilterChainMatch := FilterChainMatch chain;
     Filters := Nat.iter k (keptFilter b config) <$> Filters chain |}.

Definition rebuilt (h h' : gmap loc FilterChain) : Prop :=
  ∀ p, match h !! p, h' !! p with
       | Some chain, Some chain' => ∃ k, chain' = rebuiltChain k chain
       | None, None => True
       | _, _ => False
       end.

End rebuilds.

(** ** How a listener is addressed

    [listenerEnvoyID] is the part of the listener name before its first
    colon, empty when there is none.  [listenerSelection] is the selection of
    filter chains the listener sub-orchestrators apply to a listener, [None]
    when the listener is returned untouched. *)
Definition listenerEnvoyID (name : string) : string :=
  match IndexByte name ":"%char with
  | Some i => String.substring 0 i name
  | None => ""
  end.

Section selections.
Context `{XdsCommon}.
Variable config : RuntimeConfig.

Definition listenerSelection (l : Listener) : option (option FilterChain → Res bool) :=
  match Kind config with
  | ServiceKindTerminatingGateway =>
      if IsUpstream config then Some (tgSelects config) else None
  | ServiceKindConnectProxy =>
      if IsUpstream config then
        if bool_decide (listenerEnvoyID (Name l) = OutboundListenerName) then
          Some (filterChainTProxyMatch (upstreamVIP config))
        else if bool_decide (listenerEnvoyID (Name l) = EnvoyID config) then
          Some (λ _, Ok true)
        else None
      else
        if bool_decide (listenerEnvoyID (Name l) = PublicListenerName) then
          Some (λ _, Ok true)
        else None
  | ServiceKindOther _ => None
  end.

End selections.

(** Two payloads of the same dynamic type; listeners and unsupported payloads
    are moreover the same. *)
Definition sameKind (msg msg' : Message) : Prop :=
  match msg, msg' with
  | MCluster _, MCluster _ => True
  | MRoute _, MRoute _ => True
  | MListener l, MListener l' => l = l'
  | MOther goType, MOther goType' => goType = goType'
  | _, _ => False
  end.

Definition sameEntry (entry entry' : option Message) : Prop :=
  match entry, entry' with
  | Some msg, Some msg' => sameKind msg msg'
  | None, None => True
  | _, _ => False
  end.

(** ** What one turn of the loop may write *)
Section turn_writes.
Context `{XdsCommon}.
Variable b : BasicEnvoyExtender.
Variable config : RuntimeConfig.

(** The only writes a turn on the entry [nameOrSNI, msg] can make: at the
    same name, under the kind tag of the payload. *)
Inductive entryWrite (nameOrSNI : string) : Message → string → Message → Prop :=
  | write_cluster c c' :
      clusterMatches config nameOrSNI = true →
      PatchCluster (Extension b) config c = (c', true, None) →
      entryWrite nameOrSNI (MCluster c) ClusterType (MCluster c')
  | write_listener l :
      entryWrite nameOrSNI (MListener l) ListenerType (MListener l)
  | write_route r r' :
      routeMatches config nameOrSNI = true →
      PatchRoute (Extension b) config r = (r', true, None) →
      entryWrite nameOrSNI (MRoute r) RouteType (MRoute r').

End turn_writes.

(** * Properties *)

Section route_cluster_names.

Lemma elem_of_weightedClusterNames cs acc x :
  x ∈ weightedClusterNames acc cs ↔
  x ∈ acc ∨ (x ≠ "" ∧ ∃ c, c ∈ cs ∧ cw_Name c = x).
Proof.
  unfold weightedClusterNames.
  revert acc; induction cs as [|c cs IH]; intros acc; simpl.
  - split; [by left|]. intros [?|(?&?&Hin&?)]; [done|]. by apply elem_of_nil in Hin.
  - rewrite IH. case_decide as Hc.
    + split.
      * intros [?|(?&c'&?&?)]; [by left|]. right. split; [done|].
        exists c'. split; [by right|done].
      * intros [?|(Hx&c'&Hin&Hn)]; [by left|].
        apply elem_of_cons in Hin as [->|Hin]; [congruence|].
        right. eauto.
    + rewrite elem_of_union, elem_of_singleton. split.
      * intros [[->|?]|(?&c'&?&?)].
        -- right. split; [done|]. exists c. split; [by left|done].
        -- by left.
        -- right. split; [done|]. exists c'. split; [by right|done].
      * intros [?|(Hx&c'&Hin&Hn)]; [by left; right|].
        apply elem_of_cons in Hin as [->|Hin]; [by left; left|].
        right. eauto.
Qed.

Lemma elem_of_routeNames route acc x :
  x ∈ routeNames acc route ↔ x ∈ acc ∨ route_targets route x.
Proof.
  unfold routeNames, route_targets.
  destruct (GetRoute route) as [r|] eqn:Hr; [|naive_solver].
  destruct (GetWeightedClusters r) as [wc|] eqn:Hwc;
    rewrite ?elem_of_weightedClusterNames; case_decide as Hc;
    rewrite ?elem_of_union, ?elem_of_singleton; naive_solver.
Qed.

Lemma elem_of_foldl_routeNames routes acc x :
  x ∈ foldl routeNames acc routes ↔
  x ∈ acc ∨ ∃ route, route ∈ routes ∧ route_targets route x.
Proof.
  revert acc; induction routes as [|route routes IH]; intros acc; simpl.
  - split; [by left|]. intros [?|(?&Hin&?)]; [done|]. by apply elem_of_nil in Hin.
  - rewrite IH, elem_of_routeNames. split.
    + intros [[?|?]|(r&?&?)]; [by left| |].
      * right. exists route. split; [by left|done].
      * right. exists r. split; [by right|done].
    + intros [?|(r&Hin&?)]; [by left; left|].
      apply elem_of_cons in Hin as [->|Hin]; [by left; right|].
      right. eauto.
Qed.

Lemma elem_of_foldl_virtualHosts vhs acc x :
  x ∈ foldl (fun clusterNames virtualHost =>
               foldl routeNames clusterNames (Routes virtualHost)) acc vhs ↔
  x ∈ acc ∨ ∃ vh route, vh ∈ vhs ∧ route ∈ Routes vh ∧ route_targets route x.
Proof.
  revert acc; induction vhs as [|vh vhs IH]; intros acc; simpl.
  - split; [by left|]. intros [?|(?&?&Hin&?)]; [done|]. by apply elem_of_nil in Hin.
  - rewrite IH, elem_of_foldl_routeNames. split.
    + intros [[?|(r&?&?)]|(vh'&r&?&?&?)]; [by left| |].
      * right. exists vh, r. split; [by left|done].
      * right. exists vh', r. split; [by right|done].
    + intros [?|(vh'&r&Hin&?&?)]; [by left; left|].
      apply elem_of_cons in Hin as [->|Hin]; [left; right; eauto|].
      right. eauto.
Qed.

End route_cluster_names.

(** ** RouteClusterNames *)

(** C10: [RouteClusterNames] maps the nil table to the nil map; on a table it
    returns exactly the set of non-empty single cluster names and non-empty
    weighted-cluster member names over every route of every virtual host; a
    table without routes gives the empty set; and the table with a route to
    "db.default" and a route weighted over "a" and "b" gives those three
    names. *)
Theorem RouteClusterNames_spec :
  RouteClusterNames None = None ∧
  (∀ rc, ∃ names, RouteClusterNames (Some rc) = Some names ∧
                  ∀ x, x ∈ names ↔ table_reaches rc x) ∧
  (∀ name vhs,
     RouteClusterNames (Some {| rc_Name := name; VirtualHosts := without_routes <$> vhs |})
     = Some ∅) ∧
  RouteClusterNames (Some db_table) = Some {[ "db.default"; "a"; "b" ]}.
Proof.
  split; [done|]. split; [|split].
  - intros rc. eexists. split; [done|]. intros x.
    rewrite elem_of_foldl_virtualHosts. unfold table_reaches. set_solver.
  - intros name vhs. simpl. f_equal. apply set_eq. intros x.
    rewrite elem_of_foldl_virtualHosts. split; [|set_solver].
    intros [?|(vh&route&Hvh&Hr&_)]; [done|].
    apply list_elem_of_fmap in Hvh as (vh'&->&_). simpl in Hr.
    by apply elem_of_nil in Hr.
  - reflexivity.
Qed.

(** ** The effect monad *)
Section monad_facts.

Lemma bind_unfold {A B} (m : M A) (f : A → M B) h :
  (m ≫= f) h =
  match m h with
  | (Ok a, h1, t1) => let '(r, h2, t2) := f a h1 in (r, h2, t1 ++ t2)
  | (Panic reason, h1, t1) => (Panic reason, h1, t1)
  end.
Proof. done. Qed.

Lemma bind_run_Ok {A B} (m : M A) (f : A → M B) h a h1 t1 :
  m h = (Ok a, h1, t1) →
  (m ≫= f) h = (result (f a h1), heap (f a h1), t1 ++ calls (f a h1)).
Proof.
  intros Hm. rewrite bind_unfold, Hm. by destruct (f a h1) as [[??]?].
Qed.

Lemma bind_run_Panic {A B} (m : M A) (f : A → M B) h reason h1 t1 :
  m h = (Panic reason, h1, t1) → (m ≫= f) h = (Panic reason, h1, t1).
Proof. intros Hm. by rewrite bind_unfold, Hm. Qed.

Lemma bind_inv_Ok {A B} (m : M A) (f : A → M B) h c h2 t :
  (m ≫= f) h = (Ok c, h2, t) →
  ∃ a h1 t1 t2, m h = (Ok a, h1, t1) ∧ f a h1 = (Ok c, h2, t2) ∧ t = t1 ++ t2.
Proof.
  rewrite bind_unfold. destruct (m h) as [[[a|reason] h1] t1]; [|done].
  destruct (f a h1) as [[r h2'] t2] eqn:Hf. intros [= -> -> <-]. by exists a, h1, t1, t2.
Qed.

Lemma calls_bind {A B} (I : Call → Prop) (m : M A) (f : A → M B) h :
  Forall I (calls (m h)) →
  (∀ a h1, Forall I (calls (f a h1))) →
  Forall I (calls ((m ≫= f) h)).
Proof.
  intros Hm Hf. rewrite bind_unfold. destruct (m h) as [[[a|reason] h1] t1]; [|done].
  specialize (Hf a h1). destruct (f a h1) as [[r h2] t2]. by apply Forall_app.
Qed.

Lemma calls_forRange {A B} (I : Call → Prop) (body : A → B → M A) l :
  (∀ a x h, Forall I (calls (body a x h))) →
  ∀ a h, Forall I (calls (forRange body a l h)).
Proof.
  intros Hbody. induction l as [|x l IH]; intros a h; simpl.
  - constructor.
  - apply calls_bind; [apply Hbody|]. intros; apply IH.
Qed.

Lemma ran_Ok {A} (x : Res A * gmap loc FilterChain * list Call) :
  ranOk x = true → ∃ a h t, x = (Ok a, h, t).
Proof. destruct x as [[[a|reason] h] t]; [eauto|done]. Qed.

End monad_facts.

(** ** Transparent-proxy matching *)
Section tproxy_match.

Lemma prefixRangesMatch_true vip prefixRanges :
  prefixRangesMatch vip prefixRanges = true ↔
  ∃ prefixRange, prefixRange ∈ prefixRanges ∧ AddressPrefix prefixRange = vip.
Proof.
  induction prefixRanges as [|pr prs IH]; simpl.
  - split; [done|]. intros (?&Hin&_). by apply elem_of_nil in Hin.
  - case_decide as Heq.
    + split; [|done]. intros _. exists pr. split; [by left|done].
    + rewrite IH. split.
      * intros (pr'&?&?). exists pr'. split; [by right|done].
      * intros (pr'&Hin&?). apply elem_of_cons in Hin as [->|Hin]; [congruence|eauto].
Qed.

Lemma filterChainTProxyMatch_true vip chain :
  filterChainTProxyMatch vip (Some chain) = Ok true ↔ tproxyCandidate vip chain.
Proof.
  unfold filterChainTProxyMatch, tproxyCandidate.
  destruct (FilterChainMatch chain) as [m|].
  - split.
    + intros [= Hm]. apply prefixRangesMatch_true in Hm as (pr&?&?). by exists m, pr.
    + intros (m'&pr&[= <-]&?&?). f_equal. apply prefixRangesMatch_true. eauto.
  - split; [done|]. by intros (?&?&?&_).
Qed.

End tproxy_match.

(** ** The filter loop *)
Section filter_loop.
Variable b : BasicEnvoyExtender.
Variable config : RuntimeConfig.

Lemma appendAll_snoc resultErr errs e :
  appendAll resultErr (errs ++ [e]) = multierror_Append (appendAll resultErr errs) e.
Proof. unfold appendAll. by rewrite foldl_app. Qed.

Lemma patchFilter_run filters patched resultErr f h :
  patchFilter b config (filters, patched, resultErr) f h =
  (Ok (filters ++ [keptFilter b config f],
       patched || filterChanged b config f,
       match filterError b config f with
       | Some e => multierror_Append resultErr e
       | None => resultErr
       end),
   h, [CallPatchFilter f]).
Proof.
  unfold patchFilter, keptFilter, filterChanged, filterError.
  rewrite bind_unfold. simpl.
  destruct (PatchFilter (Extension b) config f) as [[newFilter ok] [err|]]; simpl.
  - by destruct ok; rewrite ?orb_false_r.
  - by destruct ok; rewrite ?orb_false_r, ?orb_true_r.
Qed.

Lemma forRange_patchFilter fs filters patched resultErr h :
  forRange (patchFilter b config) (filters, patched, resultErr) fs h =
  (Ok (filters ++ (keptFilter b config <$> fs),
       patched || existsb (filterChanged b config) fs,
       appendAll resultErr (omap (filterError b config) fs)),
   h, CallPatchFilter <$> fs).
Proof.
  revert filters patched resultErr.
  induction fs as [|f fs IH]; intros filters patched resultErr.
  - simpl. by rewrite app_nil_r, orb_false_r.
  - cbn [forRange]. rewrite bind_unfold, patchFilter_run, IH.
    cbn [fmap list_fmap existsb omap list_omap]. rewrite <-app_assoc, orb_assoc.
    by destruct (filterError b config f).
Qed.

Lemma patchChainFilters_run p chain patched resultErr h :
  h !! p = Some chain →
  patchChainFilters b config p patched resultErr h =
  (Ok (patched || existsb (filterChanged b config) (Filters chain),
       appendAll resultErr (omap (filterError b config) (Filters chain))),
   <[p := {| FilterChainMatch := FilterChainMatch chain;
             Filters := keptFilter b config <$> Filters chain |}]> h,
   CallPatchFilter <$> Filters chain).
Proof.
  intros Hp. unfold patchChainFilters.
  rewrite bind_unfold. unfold deref at 1. rewrite Hp.
  rewrite bind_unfold, forRange_patchFilter. simpl.
  rewrite bind_unfold. unfold set_Filters at 1. rewrite Hp. simpl.
  by rewrite app_nil_r.
Qed.

Lemma patchChainFilters_nil p patched resultErr h :
  h !! p = None →
  patchChainFilters b config p patched resultErr h = (Panic nil_dereference, h, []).
Proof.
  intros Hp. unfold patchChainFilters. rewrite bind_unfold. unfold deref at 1. by rewrite Hp.
Qed.

Lemma tproxyChain_run vip patched resultErr p h :
  tproxyChain b config vip (patched, resultErr) p h =
  match filterChainTProxyMatch vip (h !! p) with
  | Ok true => patchChainFilters b config p patched resultErr h
  | Ok false => (Ok (patched, resultErr), h, [])
  | Panic reason => (Panic reason, h, [])
  end.
Proof.
  unfold tproxyChain. rewrite bind_unfold. unfold load at 1.
  rewrite bind_unfold. unfold liftRes at 1.
  destruct (filterChainTProxyMatch vip (h !! p)) as [[]|reason]; simpl; [|done..].
  by destruct (patchChainFilters b config p patched resultErr h) as [[??]?].
Qed.

Lemma terminatingGatewayChain_run patched resultErr p h :
  terminatingGatewayChain b config (patched, resultErr) p h =
  if negb (bool_decide (getSNI (h !! p) = "")) &&
     MatchesUpstreamServiceSNI config (getSNI (h !! p))
  then patchChainFilters b config p patched resultErr h
  else (Ok (patched, resultErr), h, []).
Proof.
  unfold terminatingGatewayChain. rewrite bind_unfold. unfold load at 1.
  case_decide as Hsni.
  - by rewrite bool_decide_eq_true_2.
  - rewrite bool_decide_eq_false_2 by done. simpl.
    destruct (MatchesUpstreamServiceSNI config (getSNI (h !! p))); simpl; [|done].
    by destruct (patchChainFilters b config p patched resultErr h) as [[??]?].
Qed.

End filter_loop.

(** ** Calls are only made in scope *)
Section calls_in_scope.
Context `{XdsCommon}.
Variable b : BasicEnvoyExtender.
Variable config : RuntimeConfig.

Lemma patchChainFilters_calls I p patched resultErr h :
  filterCallsOnly I →
  Forall I (calls (patchChainFilters b config p patched resultErr h)).
Proof.
  intros HI. destruct (h !! p) as [chain|] eqn:Hp.
  - rewrite (patchChainFilters_run _ _ _ chain) by done. simpl.
    apply Forall_fmap, Forall_forall. intros f _. apply HI.
  - rewrite patchChainFilters_nil by done. constructor.
Qed.

Lemma terminatingGatewayChain_calls I acc p h :
  filterCallsOnly I →
  Forall I (calls (terminatingGatewayChain b config acc p h)).
Proof.
  intros HI. destruct acc as [patched resultErr]. unfold terminatingGatewayChain.
  apply calls_bind; [constructor|]. intros chain h1.
  case_decide; [constructor|].
  destruct (negb _); [constructor|]. by apply patchChainFilters_calls.
Qed.

Lemma tproxyChain_calls I vip acc p h :
  filterCallsOnly I →
  Forall I (calls (tproxyChain b config vip acc p h)).
Proof.
  intros HI. destruct acc as [patched resultErr]. unfold tproxyChain.
  apply calls_bind; [constructor|]. intros chain h1.
  apply calls_bind; [constructor|]. intros match_ h2.
  destruct (negb _); [constructor|]. by apply patchChainFilters_calls.
Qed.

Lemma patchListener_calls I l h :
  filterCallsOnly I →
  Forall I (calls (patchListener b config l h)).
Proof.
  intros HI. unfold patchListener. destruct (Kind config); [| |constructor].
  - unfold patchTerminatingGatewayListener. destruct (negb _); [constructor|].
    apply calls_bind; [|intros [??] ?; constructor].
    apply calls_forRange. intros. by apply terminatingGatewayChain_calls.
  - unfold patchConnectProxyListener.
    destruct (_ && _).
    { unfold patchTProxyListener.
      apply calls_bind; [|intros [??] ?; constructor].
      apply calls_forRange. intros. by apply tproxyChain_calls. }
    destruct (_ && _); [constructor|]. destruct (_ && _); [constructor|].
    apply calls_bind; [|intros [??] ?; constructor].
    apply calls_forRange. intros [??] ??. by apply patchChainFilters_calls.
Qed.

Lemma assign_calls I resources indexType nameOrSNI msg h :
  Forall I (calls (assign resources indexType nameOrSNI msg h)).
Proof. unfold assign. destruct (_ !! _); constructor. Qed.

Lemma extendEntry_calls acc entry h :
  Forall (callInScope config) (calls (extendEntry b config acc entry h)).
Proof.
  destruct acc as [resources resultErr], entry as [nameOrSNI [c|l|r|goType]];
    unfold extendEntry.
  - destruct (IsUpstream config && _) eqn:E1; [constructor|].
    destruct (negb (IsUpstream config) && _) eqn:E2; [constructor|].
    assert (clusterMatches config nameOrSNI = true) as Hscope.
    { unfold clusterMatches. destruct (IsUpstream config); simpl in *.
      - by apply negb_false_iff.
      - by rewrite E2. }
    apply calls_bind; [by repeat constructor|]. intros _ h1.
    destruct (PatchCluster _ _ _) as [[newCluster patched] [err|]]; [constructor|].
    destruct patched; [|constructor].
    apply calls_bind; [apply assign_calls|]. intros; constructor.
  - apply calls_bind; [by apply patchListener_calls|].
    intros [[newListener patched] [err|]] h1; [constructor|].
    destruct patched; [|constructor].
    apply calls_bind; [apply assign_calls|]. intros; constructor.
  - destruct (IsUpstream config && _ && _) eqn:E1; [constructor|].
    destruct (negb (IsUpstream config)) eqn:E2; [constructor|].
    assert (routeMatches config nameOrSNI = true) as Hscope.
    { unfold routeMatches. apply negb_false_iff in E2. rewrite E2 in *. simpl in *.
      destruct (MatchesUpstreamServiceSNI config nameOrSNI); [done|]. simpl in *.
      by apply negb_false_iff. }
    apply calls_bind; [by repeat constructor|]. intros _ h1.
    destruct (PatchRoute _ _ _) as [[newRoute patched] [err|]]; [constructor|].
    destruct patched; [|constructor].
    apply calls_bind; [apply assign_calls|]. intros; constructor.
  - constructor.
Qed.

Lemma Extend_calls_in_scope range resources h :
  Forall (callInScope config) (calls (Extend b config range resources h)).
Proof.
  unfold Extend.
  assert (∀ acc h,
    Forall (callInScope config)
      (calls (forRange (extendType b config range) acc
                [ListenerType; RouteType; ClusterType] h))) as Hloop.
  { intros acc h'. apply calls_forRange. intros [res err] indexType h1.
    unfold extendType. apply calls_forRange. intros. apply extendEntry_calls. }
  destruct (Kind config); [| |constructor];
    (destruct (negb _); [constructor|apply Hloop]).
Qed.

End calls_in_scope.

(** ** Claims about matching and gating *)

(** C6 (the code departs from the claim): a filter chain whose match clause is
    absent makes [filterChainTProxyMatch] panic, and the panic ends the whole
    pass; on the same chain [getSNI] answers the empty name. *)
Theorem tproxy_absent_match_panics :
  (∀ vip filters,
     filterChainTProxyMatch vip (Some (unmatched_chain filters)) = Panic nil_dereference) ∧
  (∀ filters, getSNI (Some (unmatched_chain filters)) = "") ∧
  result
    (Extend {| Extension := idle_extension |}
       (upstream_config ServiceKindConnectProxy db_snis) map_to_list
       {| Index :=
            {[ ListenerType :=
                 {[ "outbound_listener:127.0.0.1:15001" :=
                      MListener {| Name := "outbound_listener:127.0.0.1:15001";
                                   FilterChains := [1%positive] |} ]} ]} |}
       {[ 1%positive := unmatched_chain [tcp_filter "envoy.filters.network.tcp_proxy"] ]})
  = Panic nil_dereference.
Proof. split; [done|]. split; [done|]. by vm_compute. Qed.

(** C9: when the service kind is neither terminating-gateway nor
    connect-proxy, or when CanApply answers false, [Extend] returns the
    resource set it was given and a nil error, writes nothing and makes no
    patch call. *)
Theorem Extend_not_applicable `{XdsCommon} b config range resources h :
  (Kind config ≠ ServiceKindTerminatingGateway ∧ Kind config ≠ ServiceKindConnectProxy) ∨
  CanApply (Extension b) config = false →
  Extend b config range resources h = (Ok (resources, None), h, []).
Proof.
  unfold Extend. intros [[Htg Hcp]|Hcan].
  - by destruct (Kind config).
  - rewrite Hcan. by destruct (Kind config).
Qed.

Lemma Extend_not_applicable_witness :
  Extend {| Extension := marking_extension |}
         (upstream_config (ServiceKindOther "mesh-gateway") db_snis) map_to_list
         upstream_resources upstream_heap
  = (Ok (upstream_resources, None), upstream_heap, []).
Proof. apply Extend_not_applicable. left. split; discriminate. Defined.

(** C8: every call of PatchRoute made by [Extend] is for an upstream-scoped
    instance and for a route whose identity satisfies
    MatchesUpstreamServiceSNI or equals EnvoyID; a downstream-scoped instance
    gets no PatchRoute call. *)
Theorem Extend_patches_routes_in_scope `{XdsCommon} b config range resources h :
  (∀ nameOrSNI route,
     CallPatchRoute nameOrSNI route ∈ calls (Extend b config range resources h) →
     IsUpstream config = true ∧
     (MatchesUpstreamServiceSNI config nameOrSNI = true ∨ EnvoyID config = nameOrSNI)) ∧
  (IsUpstream config = false →
   ∀ nameOrSNI route,
     CallPatchRoute nameOrSNI route ∉ calls (Extend b config range resources h)).
Proof.
  pose proof (Extend_calls_in_scope b config range resources h) as Hcalls.
  rewrite Forall_forall in Hcalls.
  assert (∀ nameOrSNI route,
     CallPatchRoute nameOrSNI route ∈ calls (Extend b config range resources h) →
     IsUpstream config = true ∧
     (MatchesUpstreamServiceSNI config nameOrSNI = true ∨ EnvoyID config = nameOrSNI)) as Hin.
  { intros nameOrSNI route Hc. apply Hcalls in Hc. simpl in Hc. unfold routeMatches in Hc.
    apply andb_true_iff in Hc as [Hup Hm]. split; [done|].
    apply orb_true_iff in Hm as [?|Heq]; [by left|]. right. by apply bool_decide_eq_true in Heq. }
  split; [done|]. intros Hdown nameOrSNI route Hc. apply Hin in Hc as [Hup _]. congruence.
Qed.

(** ** What one turn of the loop writes *)
Section entry_writes.
Context `{XdsCommon}.
Variable b : BasicEnvoyExtender.
Variable config : RuntimeConfig.

Lemma assign_inv resources indexType nameOrSNI msg h resources' h' t :
  assign resources indexType nameOrSNI msg h = (Ok resources', h', t) →
  h' = h ∧ t = [] ∧
  ∃ m, Index resources !! indexType = Some m ∧
       Index resources' = <[indexType := <[nameOrSNI := msg]> m]> (Index resources).
Proof.
  unfold assign. destruct (Index resources !! indexType) as [m|]; [|done].
  intros [= <- <- <-]. eauto.
Qed.

Lemma patchListener_result l h l' patched err h' t :
  patchListener b config l h = (Ok (l', patched, err), h', t) → l' = l.
Proof.
  unfold patchListener, patchTerminatingGatewayListener, patchConnectProxyListener,
    patchTProxyListener.
  intros Hrun.
  repeat match type of Hrun with
         | context [match ?x with _ => _ end] => destruct x
         end;
    try (by injection Hrun);
    apply bind_inv_Ok in Hrun as ([??]&?&?&?&_&Hret&_); by injection Hret.
Qed.

Lemma extendEntry_index resources resultErr nameOrSNI msg h resources' resultErr' h' t :
  extendEntry b config (resources, resultErr) (nameOrSNI, msg) h
    = (Ok (resources', resultErr'), h', t) →
  resources' = resources ∨
  ∃ indexType v m,
    entryWrite b config nameOrSNI msg indexType v ∧
    Index resources !! indexType = Some m ∧
    Index resources' = <[indexType := <[nameOrSNI := v]> m]> (Index resources).
Proof.
  unfold extendEntry. destruct msg as [c|l|r|goType].
  - destruct (IsUpstream config && _) eqn:E1; [intros [= <- _ _ _]; by left|].
    destruct (negb (IsUpstream config) && _) eqn:E2; [intros [= <- _ _ _]; by left|].
    assert (clusterMatches config nameOrSNI = true) as Hscope.
    { unfold clusterMatches. destruct (IsUpstream config); simpl in *.
      - by apply negb_false_iff.
      - by rewrite E2. }
    intros Hrun. apply bind_inv_Ok in Hrun as (_&h1&t1&t2&_&Hrun&_).
    destruct (PatchCluster _ _ _) as [[newCluster patched] [err|]] eqn:Hpatch;
      [injection Hrun as <- _ _ _; by left|].
    destruct patched; [|injection Hrun as <- _ _ _; by left].
    apply bind_inv_Ok in Hrun as (res1&h2&t3&t4&Hassign&Hret&_).
    injection Hret as <- _ _ _.
    apply assign_inv in Hassign as (_&_&m&Hm&Hidx).
    right. exists ClusterType, (MCluster newCluster), m. split; [|done].
    by constructor.
  - intros Hrun. apply bind_inv_Ok in Hrun as ([[newListener patched] err]&h1&t1&t2&Hl&Hrun&_).
    apply patchListener_result in Hl as ->.
    destruct err as [err|]; [injection Hrun as <- _ _ _; by left|].
    destruct patched; [|injection Hrun as <- _ _ _; by left].
    apply bind_inv_Ok in Hrun as (res1&h2&t3&t4&Hassign&Hret&_).
    injection Hret as <- _ _ _.
    apply assign_inv in Hassign as (_&_&m&Hm&Hidx).
    right. exists ListenerType, (MListener l), m. split; [|done]. constructor.
  - destruct (IsUpstream config && _ && _) eqn:E1; [intros [= <- _ _ _]; by left|].
    destruct (negb (IsUpstream config)) eqn:E2; [intros [= <- _ _ _]; by left|].
    assert (routeMatches config nameOrSNI = true) as Hscope.
    { unfold routeMatches. apply negb_false_iff in E2. rewrite E2 in *. simpl in *.
      destruct (MatchesUpstreamServiceSNI config nameOrSNI); [done|]. simpl in *.
      by apply negb_false_iff. }
    intros Hrun. apply bind_inv_Ok in Hrun as (_&h1&t1&t2&_&Hrun&_).
    destruct (PatchRoute _ _ _) as [[newRoute patched] [err|]] eqn:Hpatch;
      [injection Hrun as <- _ _ _; by left|].
    destruct patched; [|injection Hrun as <- _ _ _; by left].
    apply bind_inv_Ok in Hrun as (res1&h2&t3&t4&Hassign&Hret&_).
    injection Hret as <- _ _ _.
    apply assign_inv in Hassign as (_&_&m&Hm&Hidx).
    right. exists RouteType, (MRoute newRoute), m. split; [|done].
    by constructor.
  - intros [= <- _ _ _]. by left.
Qed.

Lemma entry_at_write resources resources' indexType nameOrSNI v m indexType' nameOrSNI' :
  Index resources !! indexType = Some m →
  Index resources' = <[indexType := <[nameOrSNI := v]> m]> (Index resources) →
  entry_at resources' indexType' nameOrSNI' =
  if decide (indexType = indexType' ∧ nameOrSNI = nameOrSNI') then Some v
  else entry_at resources indexType' nameOrSNI'.
Proof.
  intros Hm Hidx. unfold entry_at. rewrite Hidx.
  destruct (decide (indexType = indexType')) as [<-|Hne].
  - rewrite lookup_insert_eq, Hm. simpl.
    destruct (decide (nameOrSNI = nameOrSNI')) as [<-|Hne].
    + rewrite lookup_insert_eq. by rewrite decide_True.
    + rewrite lookup_insert_ne by done. rewrite decide_False; [done|]. by intros [_ ?].
  - rewrite lookup_insert_ne by done. rewrite decide_False; [done|]. by intros [? _].
Qed.

(** An invariant of the accumulator holds after a loop that runs to its end
    when every turn that runs to its end keeps it. *)
Lemma forRange_invariant {A B} (P : A → Prop) (body : A → B → M A) l :
  (∀ a x h a' h' t, x ∈ l → P a → body a x h = (Ok a', h', t) → P a') →
  ∀ a h a' h' t, P a → forRange body a l h = (Ok a', h', t) → P a'.
Proof.
  induction l as [|x l IH]; intros Hbody a h a' h' t Ha; simpl.
  - by intros [= <- _ _].
  - intros Hrun. apply bind_inv_Ok in Hrun as (a1&h1&t1&t2&Hx&Hl&_).
    eapply IH; [|by eapply Hbody; [left|..]|done].
    intros ???????. apply Hbody. by right.
Qed.

Lemma Extend_out_of_scope_frame range resources h resources' err h' t nameOrSNI :
  clusterMatches config nameOrSNI = false →
  Extend b config range resources h = (Ok (resources', err), h', t) →
  entry_at resources' ClusterType nameOrSNI = entry_at resources ClusterType nameOrSNI.
Proof.
  intros Hscope. unfold Extend.
  set (P := λ acc : IndexedResources * option error,
              entry_at acc.1 ClusterType nameOrSNI
              = entry_at resources ClusterType nameOrSNI).
  assert (∀ acc h acc' h' t,
            P acc →
            forRange (extendType b config range) acc
              [ListenerType; RouteType; ClusterType] h = (Ok acc', h', t) → P acc') as Hloop.
  { apply forRange_invariant. intros [res e] indexType h1 [res1 e1] h2 t1 _ HP.
    unfold extendType. revert HP. apply forRange_invariant.
    intros [res2 e2] [k msg] h3 [res3 e3] h4 t2 _ HP Hrun. unfold P in *. simpl in *.
    apply extendEntry_index in Hrun as [->|(T&v&m&Hw&Hm&Hidx)]; [done|].
    rewrite (entry_at_write _ _ _ _ _ _ _ _ Hm Hidx), <-HP.
    apply decide_False. intros [HT <-].
    destruct Hw as [c c' Hin _| |]; [congruence|..].
    - pose proof types_NoDup as Hnd. rewrite HT in Hnd.
      apply NoDup_cons in Hnd as [Hnd _]. apply Hnd. set_solver.
    - pose proof types_NoDup as Hnd. rewrite HT in Hnd.
      apply NoDup_cons in Hnd as [_ Hnd]. apply NoDup_cons in Hnd as [Hnd _].
      apply Hnd. set_solver. }
  destruct (Kind config); [| |by intros [= <- _ _ _]];
    (destruct (negb _); [by intros [= <- _ _ _]|]);
    intros Hrun; by eapply (Hloop (resources, None)) in Hrun.
Qed.

End entry_writes.

(** C3 (the code departs from the claim): a downstream-scoped instance is
    never offered the local-service sentinel cluster, and it is offered the
    other clusters: on the downstream resource set the only PatchCluster call
    is for the upstream cluster. *)
Theorem Extend_downstream_cluster_calls :
  (∀ `{XdsCommon} b config range resources h cluster,
     IsUpstream config = false →
     CallPatchCluster LocalAppClusterName cluster
       ∉ calls (Extend b config range resources h)) ∧
  calls (Extend {| Extension := idle_extension |}
           (downstream_config ServiceKindConnectProxy) map_to_list
           downstream_resources downstream_heap)
  = [ CallPatchFilter (tcp_filter "envoy.filters.network.tcp_proxy");
      CallPatchCluster "db.default.dc1.internal.consul"
        (named_cluster "db.default.dc1.internal.consul") ].
Proof.
  split; [|by vm_compute].
  intros X b config range resources h cluster Hdown Hc.
  pose proof (Extend_calls_in_scope b config range resources h) as Hcalls.
  rewrite Forall_forall in Hcalls. apply Hcalls in Hc. simpl in Hc.
  unfold clusterMatches in Hc. rewrite Hdown in Hc.
  by rewrite bool_decide_eq_true_2 in Hc.
Qed.

(** C4: a cluster of the Cluster index whose identity fails the matching
    predicate of the scope (upstream-scoped: it does not satisfy
    MatchesUpstreamServiceSNI; downstream-scoped: it is the local-service
    sentinel) gets no PatchCluster call, and the returned resource set holds
    the same cluster under the same name. *)
Theorem Extend_cluster_out_of_scope `{XdsCommon}
    b config range resources h resources' err h' t nameOrSNI cluster :
  (IsUpstream config = true ∧ MatchesUpstreamServiceSNI config nameOrSNI = false) ∨
  (IsUpstream config = false ∧ nameOrSNI = LocalAppClusterName) →
  entry_at resources ClusterType nameOrSNI = Some (MCluster cluster) →
  Extend b config range resources h = (Ok (resources', err), h', t) →
  (∀ c, CallPatchCluster nameOrSNI c ∉ t) ∧
  entry_at resources' ClusterType nameOrSNI = Some (MCluster cluster).
Proof.
  intros Hfails Hentry Hrun.
  assert (clusterMatches config nameOrSNI = false) as Hscope.
  { unfold clusterMatches. destruct Hfails as [[-> ?]|[-> ->]]; [done|].
    by rewrite bool_decide_eq_true_2. }
  split.
  - intros c Hc.
    pose proof (Extend_calls_in_scope b config range resources h) as Hcalls.
    rewrite Hrun in Hcalls. simpl in Hcalls.
    rewrite Forall_forall in Hcalls. apply Hcalls in Hc. simpl in Hc. congruence.
  - by rewrite (Extend_out_of_scope_frame _ _ _ _ _ _ _ _ _ _ Hscope Hrun).
Qed.

Lemma Extend_cluster_out_of_scope_witness :
  (∀ c, CallPatchCluster "cache.default.dc1.internal.consul" c ∉
        calls (Extend {| Extension := marking_extension |}
                 (upstream_config ServiceKindConnectProxy db_snis) map_to_list
                 upstream_resources upstream_heap)) ∧
  (∃ resources' err,
     result (Extend {| Extension := marking_extension |}
               (upstream_config ServiceKindConnectProxy db_snis) map_to_list
               upstream_resources upstream_heap) = Ok (resources', err) ∧
     entry_at resources' ClusterType "cache.default.dc1.internal.consul"
     = Some (MCluster (named_cluster "cache.default.dc1.internal.consul"))).
Proof.
  destruct (Extend {| Extension := marking_extension |}
              (upstream_config ServiceKindConnectProxy db_snis) map_to_list
              upstream_resources upstream_heap) as [[[[resources' err]|reason] h'] t] eqn:Hrun;
    [|vm_compute in Hrun; discriminate Hrun].
  destruct (Extend_cluster_out_of_scope
              {| Extension := marking_extension |}
              (upstream_config ServiceKindConnectProxy db_snis) map_to_list
              upstream_resources upstream_heap resources' err h' t
              "cache.default.dc1.internal.consul"
              (named_cluster "cache.default.dc1.internal.consul"))
    as [Hcalls Hentry];
    [left; split; vm_compute; reflexivity | vm_compute; reflexivity | exact Hrun |].
  split; [exact Hcalls|]. exists resources', err. split; [reflexivity|exact Hentry].
Defined.

(** ** The chain loops *)
Section chain_loops.
Variable b : BasicEnvoyExtender.
Variable config : RuntimeConfig.

Lemma chainBody_run sel patched resultErr p h :
  chainBody b config sel (patched, resultErr) p h =
  match sel (h !! p) with
  | Ok true => patchChainFilters b config p patched resultErr h
  | Ok false => (Ok (patched, resultErr), h, [])
  | Panic reason => (Panic reason, h, [])
  end.
Proof.
  unfold chainBody. rewrite bind_unfold. unfold load at 1.
  rewrite bind_unfold. unfold liftRes at 1.
  destruct (sel (h !! p)) as [[]|reason]; simpl; [|done..].
  by destruct (patchChainFilters b config p patched resultErr h) as [[??]?].
Qed.

Lemma terminatingGatewayChain_chainBody acc p h :
  terminatingGatewayChain b config acc p h = chainBody b config (tgSelects config) acc p h.
Proof.
  destruct acc as [patched resultErr].
  rewrite terminatingGatewayChain_run, chainBody_run. unfold tgSelects.
  by destruct (_ && _).
Qed.

Lemma tproxyChain_chainBody vip acc p h :
  tproxyChain b config vip acc p h = chainBody b config (filterChainTProxyMatch vip) acc p h.
Proof.
  destruct acc as [patched resultErr].
  by rewrite tproxyChain_run, chainBody_run.
Qed.

Lemma connectProxyChain_chainBody acc p h :
  connectProxyChain b config acc p h = chainBody b config (λ _, Ok true) acc p h.
Proof. destruct acc as [patched resultErr]. by rewrite chainBody_run. Qed.

Lemma forRange_ext {A B} (body1 body2 : A → B → M A) l a h :
  (∀ a x h, body1 a x h = body2 a x h) →
  forRange body1 a l h = forRange body2 a l h.
Proof.
  intros Hext. revert a h. induction l as [|x l IH]; intros a h; simpl; [done|].
  rewrite !bind_unfold, Hext. destruct (body2 a x h) as [[[a1|reason] h1] t1]; [|done].
  by rewrite IH.
Qed.

Lemma offeredAt_insert_ne sel h p q chain :
  p ≠ q → offeredAt sel (<[p := chain]> h) q = offeredAt sel h q.
Proof. intros Hne. unfold offeredAt. by rewrite lookup_insert_ne. Qed.

Lemma turnsSafely_insert_ne sel h p q chain :
  p ≠ q → turnsSafely sel (<[p := chain]> h) q ↔ turnsSafely sel h q.
Proof. intros Hne. unfold turnsSafely. by rewrite lookup_insert_ne. Qed.

Lemma bind_offeredAt_insert sel h p chain ps :
  p ∉ ps → ps ≫= offeredAt sel (<[p := chain]> h) = ps ≫= offeredAt sel h.
Proof.
  induction ps as [|q ps IH]; intros Hp; [done|].
  apply not_elem_of_cons in Hp as [Hne Hp].
  by rewrite !bind_cons, offeredAt_insert_ne, IH.
Qed.

(** A chain loop over distinct chains, none of which makes it panic: the
    filters offered are those the chains had before the loop. *)
Lemma forRange_chainBody sel ps patched resultErr h :
  NoDup ps →
  Forall (turnsSafely sel h) ps →
  forRange (chainBody b config sel) (patched, resultErr) ps h =
  (Ok (patched || existsb (filterChanged b config) (ps ≫= offeredAt sel h),
       appendAll resultErr (omap (filterError b config) (ps ≫= offeredAt sel h))),
   patchChains b config sel h ps,
   CallPatchFilter <$> (ps ≫= offeredAt sel h)).
Proof.
  revert patched resultErr h.
  induction ps as [|p ps IH]; intros patched resultErr h Hnd Hsafe.
  - simpl. by rewrite orb_false_r.
  - apply NoDup_cons in Hnd as [Hp Hnd]. apply Forall_cons in Hsafe as [Hsafe_p Hsafe].
    cbn [forRange]. rewrite bind_unfold, chainBody_run.
    rewrite bind_cons, existsb_app, omap_app, fmap_app.
    unfold patchChains. cbn [foldl]. fold (patchChains b config sel).
    unfold turnsSafely in Hsafe_p. unfold offeredAt at 1 3 5. unfold patchChainAt.
    destruct (sel (h !! p)) as [[]|reason] eqn:Hsel; [| |done].
    + destruct Hsafe_p as [chain Hchain]. rewrite Hchain.
      rewrite (patchChainFilters_run _ _ _ chain) by done.
      fold (patchedChain b config chain).
      set (h1 := <[p := patchedChain b config chain]> h).
      assert (Forall (turnsSafely sel h1) ps) as Hsafe1.
      { rewrite Forall_forall in Hsafe. apply Forall_forall. intros q Hq.
        apply turnsSafely_insert_ne; [by intros ->|]. by apply Hsafe. }
      rewrite (IH _ _ h1 Hnd Hsafe1). unfold h1.
      rewrite bind_offeredAt_insert by done.
      unfold appendAll. by rewrite foldl_app, orb_assoc.
    + rewrite (IH _ _ h Hnd Hsafe). simpl.
      by destruct (h !! p).
Qed.

Lemma patchChainAt_lookup_ne sel h p q :
  p ≠ q → patchChainAt b config sel h p !! q = h !! q.
Proof.
  intros Hne. unfold patchChainAt.
  destruct (sel (h !! p)) as [[]|]; [|done..].
  destruct (h !! p); [|done]. by rewrite lookup_insert_ne.
Qed.

Lemma patchChains_lookup_notin sel h ps q :
  q ∉ ps → patchChains b config sel h ps !! q = h !! q.
Proof.
  revert h. induction ps as [|p ps IH]; intros h Hq; [done|].
  apply not_elem_of_cons in Hq as [Hne Hq].
  change (patchChains b config sel h (p :: ps))
    with (patchChains b config sel (patchChainAt b config sel h p) ps).
  rewrite IH by done. by apply patchChainAt_lookup_ne.
Qed.

Lemma patchChains_lookup_in sel h ps q :
  NoDup ps → q ∈ ps →
  patchChains b config sel h ps !! q =
  match sel (h !! q) with
  | Ok true => patchedChain b config <$> h !! q
  | _ => h !! q
  end.
Proof.
  revert h. induction ps as [|p ps IH]; intros h Hnd Hq; [by apply elem_of_nil in Hq|].
  apply NoDup_cons in Hnd as [Hp Hnd].
  change (patchChains b config sel h (p :: ps))
    with (patchChains b config sel (patchChainAt b config sel h p) ps).
  apply elem_of_cons in Hq as [->|Hq].
  - rewrite patchChains_lookup_notin by done. unfold patchChainAt.
    destruct (sel (h !! p)) as [[]|] eqn:Hsel; [|done..].
    destruct (h !! p) as [chain|] eqn:Hchain; [|done].
    by rewrite lookup_insert_eq.
  - assert (p ≠ q) as Hne by (by intros ->).
    rewrite IH by done. by rewrite patchChainAt_lookup_ne.
Qed.

(** The calls of a chain loop are the filters it offers turn by turn, whether
    the loop ends or panics. *)
Lemma forRange_chainBody_calls sel ps acc h :
  calls (forRange (chainBody b config sel) acc ps h) =
  CallPatchFilter <$> offeredBy b config sel h ps.
Proof.
  revert acc h. induction ps as [|p ps IH]; intros [patched resultErr] h; [done|].
  cbn [forRange offeredBy]. rewrite bind_unfold, chainBody_run.
  destruct (sel (h !! p)) as [[]|reason] eqn:Hsel; [| |done].
  - destruct (h !! p) as [chain|] eqn:Hp.
    + rewrite (patchChainFilters_run _ _ _ chain) by done.
      fold (patchedChain b config chain).
      destruct (forRange _ _ ps _) as [[r h2] t2] eqn:Hloop.
      apply (f_equal calls) in Hloop. rewrite IH in Hloop. simpl in *.
      by rewrite fmap_app, Hloop.
    + by rewrite patchChainFilters_nil.
  - destruct (forRange _ _ ps _) as [[r h2] t2] eqn:Hloop.
    apply (f_equal calls) in Hloop. rewrite IH in Hloop. simpl in *.
    by destruct (h !! p).
Qed.

Lemma patchChainAt_match sel h q p :
  patchChainAt b config sel h q !! p ≫= FilterChainMatch = h !! p ≫= FilterChainMatch.
Proof.
  unfold patchChainAt. destruct (sel (h !! q)) as [[]|]; [|done..].
  destruct (h !! q) as [chain|] eqn:Hq; [|done].
  destruct (decide (q = p)) as [->|Hne].
  - by rewrite lookup_insert_eq, Hq.
  - by rewrite lookup_insert_ne.
Qed.

Lemma getSNI_match chain1 chain2 :
  chain1 ≫= FilterChainMatch = chain2 ≫= FilterChainMatch → getSNI chain1 = getSNI chain2.
Proof.
  unfold getSNI. destruct chain1 as [c1|], chain2 as [c2|]; simpl.
  - by intros ->.
  - by intros ->.
  - by intros <-.
  - done.
Qed.

(** A chain loop in which no turn panics, by an invariant [I] of the heap
    that the turns keep. *)
Lemma forRange_chainBody_turns (I : gmap loc FilterChain → Prop) sel ps patched resultErr h :
  (∀ h p, I h → p ∈ ps → turnsSafely sel h p) →
  (∀ h p, I h → I (patchChainAt b config sel h p)) →
  I h →
  forRange (chainBody b config sel) (patched, resultErr) ps h =
  (Ok (patched || existsb (filterChanged b config) (offeredBy b config sel h ps),
       appendAll resultErr (omap (filterError b config) (offeredBy b config sel h ps))),
   patchChains b config sel h ps,
   CallPatchFilter <$> offeredBy b config sel h ps).
Proof.
  intros Hsafe Hkeep. revert patched resultErr h.
  induction ps as [|p ps IH]; intros patched resultErr h HI.
  - simpl. by rewrite orb_false_r.
  - pose proof (Hsafe h p HI ltac:(left)) as Hsafe_p.
    pose proof (Hkeep h p HI) as HI1.
    assert (∀ h p, I h → p ∈ ps → turnsSafely sel h p) as Hsafe'.
    { intros h' q ??. apply Hsafe; [done|by right]. }
    specialize (IH Hsafe').
    cbn [forRange offeredBy]. rewrite bind_unfold, chainBody_run.
    unfold patchChains. cbn [foldl]. fold (patchChains b config sel).
    unfold turnsSafely in Hsafe_p. unfold patchChainAt in *.
    destruct (sel (h !! p)) as [[]|reason] eqn:Hsel; [| |done].
    + destruct Hsafe_p as [chain Hchain]. rewrite Hchain in *.
      rewrite (patchChainFilters_run _ _ _ chain) by done.
      fold (patchedChain b config chain).
      rewrite (IH _ _ _ HI1).
      rewrite existsb_app, omap_app, fmap_app.
      unfold appendAll. by rewrite foldl_app, orb_assoc.
    + rewrite (IH _ _ _ HI). by destruct (h !! p).
Qed.

(** Over distinct chains, none of which makes the loop panic, the filters
    offered are those the chains had before the loop. *)
Lemma offeredBy_NoDup sel ps h :
  NoDup ps →
  Forall (turnsSafely sel h) ps →
  offeredBy b config sel h ps = ps ≫= offeredAt sel h.
Proof.
  intros Hnd Hsafe.
  pose proof (forRange_chainBody_calls sel ps (false, None) h) as Hcalls.
  rewrite forRange_chainBody in Hcalls by done. simpl in Hcalls.
  assert (Inj (=) (=) CallPatchFilter) as Hinj by (by intros ?? [= ->]).
  symmetry. by apply (inj (fmap CallPatchFilter)).
Qed.

Lemma calls_bind_silent {A B} (m : M A) (f : A → M B) h :
  (∀ a h1, calls (f a h1) = []) → calls ((m ≫= f) h) = calls (m h).
Proof.
  intros Hf. rewrite bind_unfold. destruct (m h) as [[[a|reason] h1] t1]; [|done].
  specialize (Hf a h1). destruct (f a h1) as [[r h2] t2]. simpl in *. subst.
  by rewrite app_nil_r.
Qed.

End chain_loops.

(** ** The terminating-gateway listener *)
Section terminating_gateway.
Context `{XdsCommon}.
Variable b : BasicEnvoyExtender.
Variable config : RuntimeConfig.

Lemma tgSelects_safe h p : turnsSafely (tgSelects config) h p.
Proof.
  unfold turnsSafely, tgSelects.
  destruct (h !! p) as [chain|]; simpl; [by destruct (_ && _)|done].
Qed.

Lemma existsb_filterChanged fs :
  existsb (filterChanged b config) fs = true ↔
  ∃ filter newFilter,
    filter ∈ fs ∧ PatchFilter (Extension b) config filter = (newFilter, true, None).
Proof.
  rewrite existsb_exists. unfold filterChanged. split.
  - intros (f&Hin&Hf). apply list_elem_of_In in Hin.
    destruct (PatchFilter (Extension b) config f) as [[newFilter []] [err|]] eqn:Hp;
      try done.
    by exists f, newFilter.
  - intros (f&newFilter&Hin&Hp). exists f. split; [by apply list_elem_of_In|].
    by rewrite Hp.
Qed.

Lemma patchTerminatingGatewayListener_turns l h :
  IsUpstream config = true →
  patchTerminatingGatewayListener b config l h =
  (Ok (l,
       existsb (filterChanged b config)
               (offeredBy b config (tgSelects config) h (FilterChains l)),
       appendAll None
         (omap (filterError b config)
               (offeredBy b config (tgSelects config) h (FilterChains l)))),
   patchChains b config (tgSelects config) h (FilterChains l),
   CallPatchFilter <$> offeredBy b config (tgSelects config) h (FilterChains l)).
Proof.
  intros Hup. unfold patchTerminatingGatewayListener. rewrite Hup. simpl.
  rewrite bind_unfold.
  rewrite (forRange_ext _ (chainBody b config (tgSelects config)))
    by apply terminatingGatewayChain_chainBody.
  rewrite (forRange_chainBody_turns _ _ (λ _, True)); [|intros; apply tgSelects_safe|done..].
  simpl. by rewrite app_nil_r.
Qed.

Lemma tgSelects_candidate chain :
  tgSelects config (Some chain) = Ok true ↔ tgCandidate config chain.
Proof.
  unfold tgSelects, tgCandidate, getSNI.
  destruct (FilterChainMatch chain) as [m|]; simpl.
  - destruct (ServerNames m) as [|sni rest] eqn:Hnames; simpl.
    + split; [done|]. intros (?&?&?&[= <-]&?&_). congruence.
    + split.
      * intros [= Hsel]. apply andb_true_iff in Hsel as [Hne Hm].
        apply negb_true_iff, bool_decide_eq_false in Hne. by exists m, sni, rest.
      * intros (?&?&?&[= <-]&Hs&Hne&Hm). rewrite Hnames in Hs.
        injection Hs as <- <-. f_equal.
        apply andb_true_iff. split; [|done].
        by apply negb_true_iff, bool_decide_eq_false.
  - split; [done|]. by intros (?&?&?&?&_).
Qed.

Lemma tgSelects_not_candidate chain :
  ¬ tgCandidate config chain → tgSelects config (Some chain) = Ok false.
Proof.
  intros Hn. pose proof (tgSelects_candidate chain) as Hiff.
  unfold tgSelects in *. destruct (_ && _); [|done]. destruct Hn. by apply Hiff.
Qed.

End terminating_gateway.

(** ** The transparent-proxy listener *)
Section tproxy_listener.
Context `{XdsCommon}.
Variable b : BasicEnvoyExtender.
Variable config : RuntimeConfig.

Lemma tproxy_safe vip h p :
  is_Some (h !! p ≫= FilterChainMatch) → turnsSafely (filterChainTProxyMatch vip) h p.
Proof.
  unfold turnsSafely, filterChainTProxyMatch. intros [m Hm].
  destruct (h !! p) as [chain|]; simpl in *; [|done]. rewrite Hm.
  by destruct (prefixRangesMatch _ _).
Qed.

Lemma patchTProxyListener_calls l h :
  calls (patchTProxyListener b config l h) =
  CallPatchFilter <$>
    offeredBy b config (filterChainTProxyMatch (upstreamVIP config)) h (FilterChains l).
Proof.
  unfold patchTProxyListener.
  rewrite calls_bind_silent by (by intros [??] ?).
  rewrite (forRange_ext _ (chainBody b config (filterChainTProxyMatch (upstreamVIP config))))
    by apply tproxyChain_chainBody.
  apply forRange_chainBody_calls.
Qed.

Lemma patchTProxyListener_run l h :
  Forall (λ p, is_Some (h !! p ≫= FilterChainMatch)) (FilterChains l) →
  patchTProxyListener b config l h =
  (Ok (l,
       existsb (filterChanged b config)
               (offeredBy b config (filterChainTProxyMatch (upstreamVIP config)) h
                          (FilterChains l)),
       appendAll None
         (omap (filterError b config)
               (offeredBy b config (filterChainTProxyMatch (upstreamVIP config)) h
                          (FilterChains l)))),
   patchChains b config (filterChainTProxyMatch (upstreamVIP config)) h (FilterChains l),
   CallPatchFilter <$>
     offeredBy b config (filterChainTProxyMatch (upstreamVIP config)) h (FilterChains l)).
Proof.
  intros Hm. unfold patchTProxyListener.
  rewrite bind_unfold.
  rewrite (forRange_ext _ (chainBody b config (filterChainTProxyMatch (upstreamVIP config))))
    by apply tproxyChain_chainBody.
  rewrite (forRange_chainBody_turns _ _
             (λ h, Forall (λ p, is_Some (h !! p ≫= FilterChainMatch)) (FilterChains l)));
    [|..|done].
  - simpl. by rewrite app_nil_r.
  - intros h' p Hh' Hp. apply tproxy_safe. rewrite Forall_forall in Hh'. by apply Hh'.
  - intros h' p Hh'. eapply Forall_impl; [exact Hh'|].
    intros q Hq. simpl in *. by rewrite patchChainAt_match.
Qed.

Lemma patchListener_tproxy l :
  Kind config = ServiceKindConnectProxy →
  IsUpstream config = true →
  listenerEnvoyID (Name l) = OutboundListenerName →
  patchListener b config l = patchTProxyListener b config l.
Proof.
  intros Hkind Hup Hid. unfold patchListener, patchConnectProxyListener.
  rewrite Hkind, Hup. fold (listenerEnvoyID (Name l)). rewrite Hid.
  by rewrite bool_decide_eq_true_2.
Qed.

End tproxy_listener.

(** ** Claims about the listener sub-cases *)

(** C5: in the transparent-proxy sub-case (connect-proxy kind, upstream scope,
    the outbound listener) the VIP is the one configured for the upstream, and
    a filter chain is a candidate, that is, its filters are offered to
    PatchFilter, exactly when its address-prefix match set has an entry whose
    prefix string equals that VIP; "10.0.0.5/32" and "10.0.0.5" do not match
    each other. *)
Theorem tproxy_match_is_string_equality :
  (∀ (X : XdsCommon) b config l,
     Kind config = ServiceKindConnectProxy →
     IsUpstream config = true →
     listenerEnvoyID (Name l) = OutboundListenerName →
     patchListener b config l = patchTProxyListener b config l) ∧
  (∀ config u,
     Upstreams config !! ServiceName config = Some u → upstreamVIP config = VIP u) ∧
  (∀ vip chain,
     filterChainTProxyMatch vip (Some chain) = Ok true ↔ tproxyCandidate vip chain) ∧
  (∀ b config l h,
     calls (patchTProxyListener b config l h) =
     CallPatchFilter <$>
       offeredBy b config (filterChainTProxyMatch (upstreamVIP config)) h (FilterChains l)) ∧
  (∀ b config h p ps chain,
     h !! p = Some chain →
     (tproxyCandidate (upstreamVIP config) chain →
      offeredBy b config (filterChainTProxyMatch (upstreamVIP config)) h (p :: ps) =
      Filters chain ++
      offeredBy b config (filterChainTProxyMatch (upstreamVIP config))
                (<[p := patchedChain b config chain]> h) ps) ∧
     (¬ tproxyCandidate (upstreamVIP config) chain →
      is_Some (FilterChainMatch chain) →
      offeredBy b config (filterChainTProxyMatch (upstreamVIP config)) h (p :: ps) =
      offeredBy b config (filterChainTProxyMatch (upstreamVIP config)) h ps) ∧
     (FilterChainMatch chain = None →
      offeredBy b config (filterChainTProxyMatch (upstreamVIP config)) h (p :: ps) = [])) ∧
  (∀ b config l h,
     Forall (λ p, is_Some (h !! p ≫= FilterChainMatch)) (FilterChains l) →
     ∃ patched err,
       result (patchTProxyListener b config l h) = Ok (l, patched, err) ∧
       (patched = true ↔
        ∃ filter newFilter,
          filter ∈ offeredBy b config (filterChainTProxyMatch (upstreamVIP config)) h
                             (FilterChains l) ∧
          PatchFilter (Extension b) config filter = (newFilter, true, None))) ∧
  (∀ b config vip acc p chain h,
     h !! p = Some chain →
     (tproxyCandidate vip chain →
      calls (tproxyChain b config vip acc p h) = CallPatchFilter <$> Filters chain) ∧
     (¬ tproxyCandidate vip chain →
      calls (tproxyChain b config vip acc p h) = [])) ∧
  (∀ b filters,
     upstreamVIP (vip_config "10.0.0.5") = "10.0.0.5" ∧
     upstreamVIP (vip_config "10.0.0.5/32") = "10.0.0.5/32" ∧
     calls (patchListener b (vip_config "10.0.0.5") outbound_listener
              {[ 1%positive := prefix_chain "10.0.0.5/32" filters ]}) = [] ∧
     calls (patchListener b (vip_config "10.0.0.5/32") outbound_listener
              {[ 1%positive := prefix_chain "10.0.0.5" filters ]}) = [] ∧
     calls (patchListener b (vip_config "10.0.0.5") outbound_listener
              {[ 1%positive := prefix_chain "10.0.0.5" filters ]})
     = CallPatchFilter <$> filters) ∧
  (∀ filters,
     filterChainTProxyMatch "10.0.0.5" (Some (prefix_chain "10.0.0.5/32" filters)) = Ok false ∧
     filterChainTProxyMatch "10.0.0.5/32" (Some (prefix_chain "10.0.0.5" filters)) = Ok false ∧
     filterChainTProxyMatch "10.0.0.5" (Some (prefix_chain "10.0.0.5" filters)) = Ok true).
Proof.
  split; [intros; by apply patchListener_tproxy|].
  split; [intros config u Hu; unfold upstreamVIP; by rewrite Hu|].
  split; [apply filterChainTProxyMatch_true|].
  split; [apply patchTProxyListener_calls|].
  split.
  { intros b config h p ps chain Hp. cbn [offeredBy]. rewrite Hp.
    pose proof (filterChainTProxyMatch_true (upstreamVIP config) chain) as Hiff.
    split; [|split].
    - intros Hc. apply Hiff in Hc. by rewrite Hc.
    - intros Hn [m Hm].
      destruct (filterChainTProxyMatch (upstreamVIP config) (Some chain)) as [[]|reason] eqn:Hsel.
      + destruct Hn. by apply Hiff.
      + done.
      + unfold filterChainTProxyMatch in Hsel. by rewrite Hm in Hsel.
    - intros Hm. unfold filterChainTProxyMatch. by rewrite Hm. }
  split.
  { intros b config l h Hm. rewrite patchTProxyListener_run by done.
    eexists _, _. split; [done|]. apply existsb_filterChanged. }
  split.
  { intros b config vip [patched resultErr] p chain h Hp.
    rewrite tproxyChain_run, Hp.
    pose proof (filterChainTProxyMatch_true vip chain) as Hiff.
    destruct (filterChainTProxyMatch vip (Some chain)) as [[]|reason]; simpl.
    - rewrite (patchChainFilters_run _ _ _ chain) by done. simpl.
      split; [done|]. intros Hn. destruct Hn. by apply Hiff.
    - split; [|done]. intros Hc. by apply Hiff in Hc.
    - split; [|done]. intros Hc. by apply Hiff in Hc. }
  split; [|done].
  intros b filters. split; [done|]. split; [done|].
  rewrite !(patchListener_tproxy b _ outbound_listener) by done.
  rewrite !patchTProxyListener_calls.
  split; [done|]. split; [done|].
  replace (offeredBy _ _ _ _ _) with (filters ++ []) by (vm_compute; reflexivity).
  by rewrite app_nil_r.
Qed.

(** C7, as amended: for a terminating-gateway, upstream-scoped configuration
    the filters offered to PatchFilter are, turn by turn and in order, all the
    filters of exactly the chains whose first declared server name is not
    empty and satisfies MatchesUpstreamServiceSNI; the listener is reported
    changed exactly when one of the offered filters returned changed = true
    with a nil error. *)
Theorem terminating_gateway_offers_matching_chains `{XdsCommon} b config l h :
  Kind config = ServiceKindTerminatingGateway →
  IsUpstream config = true →
  calls (patchListener b config l h) =
  CallPatchFilter <$> offeredBy b config (tgSelects config) h (FilterChains l) ∧
  (∀ h p ps,
     match h !! p with
     | Some chain =>
         (tgCandidate config chain →
          offeredBy b config (tgSelects config) h (p :: ps) =
          Filters chain ++
          offeredBy b config (tgSelects config) (<[p := patchedChain b config chain]> h) ps) ∧
         (¬ tgCandidate config chain →
          offeredBy b config (tgSelects config) h (p :: ps) =
          offeredBy b config (tgSelects config) h ps) ∧
         (tgCandidate config (patchedChain b config chain) ↔ tgCandidate config chain)
     | None =>
         offeredBy b config (tgSelects config) h (p :: ps) =
         offeredBy b config (tgSelects config) h ps
     end) ∧
  (NoDup (FilterChains l) →
   offeredBy b config (tgSelects config) h (FilterChains l) = tgOffered config h l) ∧
  (∀ p,
     offeredAt (tgSelects config) h p =
     match h !! p with
     | Some chain =>
         match FilterChainMatch chain with
         | Some m =>
             match ServerNames m with
             | sni :: _ =>
                 if negb (bool_decide (sni = "")) && MatchesUpstreamServiceSNI config sni
                 then Filters chain else []
             | [] => []
             end
         | None => []
         end
     | None => []
     end) ∧
  ∃ patched err,
    result (patchListener b config l h) = Ok (l, patched, err) ∧
    (patched = true ↔
     ∃ filter newFilter,
       filter ∈ offeredBy b config (tgSelects config) h (FilterChains l) ∧
       PatchFilter (Extension b) config filter = (newFilter, true, None)).
Proof.
  intros Hkind Hup. unfold patchListener. rewrite Hkind.
  rewrite patchTerminatingGatewayListener_turns by done.
  unfold calls, result. cbn [fst snd].
  split; [done|]. split; [|split; [|split]].
  - intros h' p ps. cbn [offeredBy].
    destruct (h' !! p) as [chain|]; [|done].
    split; [|split].
    + intros Hc. apply tgSelects_candidate in Hc. by rewrite Hc.
    + intros Hn. by rewrite tgSelects_not_candidate.
    + done.
  - intros Hnd. apply offeredBy_NoDup; [done|].
    apply Forall_forall. intros p _. apply tgSelects_safe.
  - intros p. unfold offeredAt, tgSelects.
    destruct (h !! p) as [chain|]; simpl; [|done].
    destruct (FilterChainMatch chain) as [m|]; simpl; [|done].
    destruct (ServerNames m) as [|sni rest]; simpl; [done|].
    by destruct (_ && _).
  - eexists _, _. split; [done|]. apply existsb_filterChanged.
Qed.

Lemma terminating_gateway_offers_matching_chains_witness :
  (calls (patchListener {| Extension := marking_extension |} gateway_config
            gateway_listener gateway_heap)
   = [ CallPatchFilter (tcp_filter "tcp"); CallPatchFilter (tcp_filter "bad") ] ∧
   ∃ err,
     result (patchListener {| Extension := marking_extension |} gateway_config
               gateway_listener gateway_heap) = Ok (gateway_listener, true, err)) ∧
  calls (patchListener {| Extension := marking_extension |} gateway_config
           repeated_listener gateway_heap)
  = [ CallPatchFilter (tcp_filter "tcp");
      CallPatchFilter (tcp_filter "bad");
      CallPatchFilter {| filter_Name := "tcp";
                         TypedConfig := Some {| TypeUrl := "patched"; Value := "" |} |};
      CallPatchFilter (tcp_filter "bad") ].
Proof.
  split.
  - destruct (terminating_gateway_offers_matching_chains
                {| Extension := marking_extension |} gateway_config
                gateway_listener gateway_heap)
      as (Hcalls&_&_&_&patched&err&Hres&Hpatched); [reflexivity|reflexivity|].
    split; [rewrite Hcalls; vm_compute; reflexivity|].
    exists err. rewrite Hres. repeat f_equal. apply Hpatched.
    exists (tcp_filter "tcp"), (fst (fst (PatchFilter marking_extension gateway_config
                                            (tcp_filter "tcp")))).
    split; [vm_compute; left|vm_compute; reflexivity].
  - destruct (terminating_gateway_offers_matching_chains
                {| Extension := marking_extension |} gateway_config
                repeated_listener gateway_heap)
      as (Hcalls&_); [reflexivity|reflexivity|].
    rewrite Hcalls. vm_compute. reflexivity.
Defined.

(** C7 as stated fails on two inputs.  An offered filter for which PatchFilter
    returns changed = true together with an error does not make the listener
    changed; and a chain whose first declared server name is the empty string
    is skipped even when the empty name satisfies MatchesUpstreamServiceSNI. *)
Lemma terminating_gateway_claim_fails :
  (calls (patchListener {| Extension := changed_with_error_extension |} gateway_config
            gateway_listener gateway_heap)
   = [ CallPatchFilter (tcp_filter "tcp"); CallPatchFilter (tcp_filter "bad") ] ∧
   PatchFilter changed_with_error_extension gateway_config (tcp_filter "tcp")
   = (tcp_filter "tcp", true, Some (ErrorString "patch failed")) ∧
   result (patchListener {| Extension := changed_with_error_extension |} gateway_config
             gateway_listener gateway_heap)
   = Ok (gateway_listener, false,
         Some (MultiError
                 [ Errorf "error patching listener filter" (ErrorString "patch failed");
                   Errorf "error patching listener filter" (ErrorString "patch failed") ]))) ∧
  (MatchesUpstreamServiceSNI (upstream_config ServiceKindTerminatingGateway [""]) "" = true ∧
   getSNI (Some (sni_chain [""] [tcp_filter "tcp"])) = "" ∧
   calls (patchListener {| Extension := marking_extension |}
            (upstream_config ServiceKindTerminatingGateway [""])
            {| Name := "default:1.2.3.4:8443"; FilterChains := [1%positive] |}
            {[ 1%positive := sni_chain [""] [tcp_filter "tcp"] ]})
   = []).
Proof. by vm_compute. Qed.

(** ** A pass that does not apply *)

(** A pass for another service kind, or one the extension declines, hands
    back what it was given. *)
Lemma Extend_inapplicable `{XdsCommon} b config range resources h :
  (Kind config ≠ ServiceKindTerminatingGateway ∧ Kind config ≠ ServiceKindConnectProxy) ∨
  CanApply (Extension b) config = false →
  Extend b config range resources h = (Ok (resources, None), h, []).
Proof.
  unfold Extend. intros [[Htg Hcp]|Hcan].
  - by destruct (Kind config).
  - rewrite Hcan. by destruct (Kind config).
Qed.

(** ** A pass as one loop *)
Section flat_pass.
Context `{XdsCommon}.
Variable b : BasicEnvoyExtender.
Variable config : RuntimeConfig.
Variable range : gmap string Message → list (string * Message).
Hypothesis range_perm : ∀ m, range m ≡ₚ map_to_list m.

Lemma bind_ret_r {A} (m : M A) h : (m ≫= mret) h = m h.
Proof using Type.
  rewrite bind_unfold. destruct (m h) as [[[a|reason] h1] t1]; [|done].
  simpl. by rewrite app_nil_r.
Qed.

Lemma forRange_app {A B} (body : A → B → M A) l1 l2 a h :
  forRange body a (l1 ++ l2) h = (forRange body a l1 ≫= λ a', forRange body a' l2) h.
Proof using Type.
  revert a h. induction l1 as [|x l1 IH]; intros a h.
  - simpl. rewrite bind_unfold. simpl. by destruct (forRange body a l2 h) as [[??]?].
  - cbn [app forRange]. rewrite !bind_unfold.
    destruct (body a x h) as [[[a1|reason] h1] t1]; [|done].
    rewrite IH, bind_unfold.
    destruct (forRange body a1 l1 h1) as [[[a2|reason] h2] t2]; [|done].
    destruct (forRange body a2 l2 h2) as [[r3 h3] t3]. by rewrite app_assoc.
Qed.

Lemma elem_of_range m nameOrSNI msg :
  (nameOrSNI, msg) ∈ range m ↔ m !! nameOrSNI = Some msg.
Proof. by rewrite range_perm, elem_of_map_to_list. Qed.

Lemma NoDup_fst_range m : NoDup (range m).*1.
Proof. rewrite range_perm. apply NoDup_fst_map_to_list. Qed.

Lemma indexOf_lookup resources indexType nameOrSNI :
  indexOf resources indexType !! nameOrSNI = entry_at resources indexType nameOrSNI.
Proof using Type.
  unfold indexOf, entry_at. by destruct (Index resources !! indexType).
Qed.

Lemma wellTagged_range resources indexType :
  wellTagged resources → indexType ∈ indexTypes →
  Forall (λ entry, tagAgrees indexType entry.2) (range (indexOf resources indexType)).
Proof.
  intros Htag Hin. unfold wellTagged in Htag. rewrite Forall_forall in Htag.
  specialize (Htag _ Hin). apply Forall_forall. intros [k msg] Hk.
  apply elem_of_range in Hk. by apply (Htag k msg).
Qed.

Lemma entryWrite_tag nameOrSNI msg indexType indexType' v :
  entryWrite b config nameOrSNI msg indexType' v →
  tagAgrees indexType msg → indexType' = indexType.
Proof using Type. by destruct 1. Qed.

Lemma extendEntry_frame_type acc entry h acc' h' t indexType indexType' :
  extendEntry b config acc entry h = (Ok acc', h', t) →
  tagAgrees indexType entry.2 → indexType' ≠ indexType →
  Index acc'.1 !! indexType' = Index acc.1 !! indexType'.
Proof using Type.
  destruct acc as [res e], acc' as [res' e'], entry as [k msg]. simpl.
  intros Hrun Htag Hne.
  apply extendEntry_index in Hrun as [->|(T&v&m&Hw&Hm&Hidx)]; [done|].
  rewrite Hidx. apply lookup_insert_ne. intros <-. apply Hne.
  by eapply entryWrite_tag.
Qed.

Lemma forRange_extendEntry_frame_type es acc h acc' h' t indexType indexType' :
  Forall (λ entry, tagAgrees indexType entry.2) es →
  forRange (extendEntry b config) acc es h = (Ok acc', h', t) →
  indexType' ≠ indexType →
  Index acc'.1 !! indexType' = Index acc.1 !! indexType'.
Proof using Type.
  intros Htag Hrun Hne. rewrite Forall_forall in Htag.
  revert Hrun.
  apply (forRange_invariant
           (λ a, Index a.1 !! indexType' = Index acc.1 !! indexType')); [|done].
  intros a x h1 a' h2 t1 Hx Ha Hrun. rewrite <-Ha.
  eapply extendEntry_frame_type; [done|by apply Htag|done].
Qed.

Lemma indexTypes_distinct :
  ListenerType ≠ RouteType ∧ ListenerType ≠ ClusterType ∧ RouteType ≠ ClusterType.
Proof using Type.
  pose proof types_NoDup as Hnd.
  apply NoDup_cons in Hnd as [H1 Hnd]. apply NoDup_cons in Hnd as [H2 _].
  split; [|split]; intros Heq; [apply H1|apply H1|apply H2]; rewrite Heq;
    repeat constructor.
Qed.

(** On a well-tagged resource set each of the three inner loops writes only
    its own map, so the pass is one loop over the entries of the three maps
    as they were given. *)
Lemma Extend_flat resources h :
  wellTagged resources →
  Kind config = ServiceKindTerminatingGateway ∨ Kind config = ServiceKindConnectProxy →
  CanApply (Extension b) config = true →
  Extend b config range resources h =
  forRange (extendEntry b config) (resources, None) (visited range resources) h.
Proof.
  intros Htag Hkind Hcan.
  destruct indexTypes_distinct as (HLR&HLC&HRC).
  assert (Extend b config range resources h =
          forRange (extendType b config range) (resources, None) indexTypes h) as ->.
  { unfold Extend. rewrite Hcan. by destruct Hkind as [-> | ->]. }
  unfold visited, indexTypes. rewrite !bind_cons. change (@mbind list _ _ _ _ []) with (@nil (string * Message)). rewrite app_nil_r.
  cbn [forRange]. rewrite forRange_app. rewrite !bind_unfold.
  unfold extendType at 1. fold (indexOf resources ListenerType).
  destruct (forRange (extendEntry b config) (resources, None)
              (range (indexOf resources ListenerType)) h)
    as [[[[res1 e1]|reason] h1] t1] eqn:HL; [|done].
  pose proof (wellTagged_range _ ListenerType Htag ltac:(set_solver)) as HtagL.
  pose proof (forRange_extendEntry_frame_type _ _ _ _ _ _ _ RouteType HtagL HL
                ltac:(done)) as HR1.
  pose proof (forRange_extendEntry_frame_type _ _ _ _ _ _ _ ClusterType HtagL HL
                ltac:(done)) as HC1.
  simpl in HR1, HC1.
  rewrite forRange_app. rewrite !bind_unfold.
  unfold extendType at 1. fold (indexOf res1 RouteType).
  assert (indexOf res1 RouteType = indexOf resources RouteType) as ->
    by (unfold indexOf; by rewrite HR1).
  destruct (forRange (extendEntry b config) (res1, e1)
              (range (indexOf resources RouteType)) h1)
    as [[[[res2 e2]|reason] h2] t2] eqn:HR; [|done].
  pose proof (wellTagged_range _ RouteType Htag ltac:(set_solver)) as HtagR.
  pose proof (forRange_extendEntry_frame_type _ _ _ _ _ _ _ ClusterType HtagR HR
                ltac:(done)) as HC2.
  simpl in HC2.
  rewrite bind_unfold.
  unfold extendType at 1. fold (indexOf res2 ClusterType).
  assert (indexOf res2 ClusterType = indexOf resources ClusterType) as ->
    by (unfold indexOf; by rewrite HC2, HC1).
  destruct (forRange (extendEntry b config) (res2, e2)
              (range (indexOf resources ClusterType)) h2)
    as [[[[res3 e3]|reason] h3] t3] eqn:HC; [|done].
  simpl. by rewrite app_nil_r.
Qed.

End flat_pass.

(** ** One turn of the loop, exactly *)
Section turns.
Context `{XdsCommon}.
Variable b : BasicEnvoyExtender.
Variable config : RuntimeConfig.

Lemma extendEntry_cluster resources resultErr nameOrSNI c h :
  extendEntry b config (resources, resultErr) (nameOrSNI, MCluster c) h =
  if clusterMatches config nameOrSNI then
    match PatchCluster (Extension b) config c with
    | (_, _, Some err) =>
        (Ok (resources, multierror_Append resultErr (Errorf "error patching cluster" err)),
         h, [CallPatchCluster nameOrSNI c])
    | (newCluster, true, None) =>
        match Index resources !! ClusterType with
        | Some m =>
            (Ok ({| Index := <[ClusterType := <[nameOrSNI := MCluster newCluster]> m]>
                               (Index resources) |}, resultErr),
             h, [CallPatchCluster nameOrSNI c])
        | None => (Panic nil_map_assignment, h, [CallPatchCluster nameOrSNI c])
        end
    | (_, false, None) => (Ok (resources, resultErr), h, [CallPatchCluster nameOrSNI c])
    end
  else (Ok (resources, resultErr), h, []).
Proof.
  unfold extendEntry, clusterMatches.
  destruct (IsUpstream config); simpl.
  - destruct (MatchesUpstreamServiceSNI config nameOrSNI); simpl; [|done].
    rewrite bind_unfold. simpl.
    destruct (PatchCluster _ _ _) as [[newCluster []] [err|]]; try done.
    rewrite bind_unfold. unfold assign.
    by destruct (Index resources !! ClusterType).
  - destruct (bool_decide _); simpl; [done|].
    rewrite bind_unfold. simpl.
    destruct (PatchCluster _ _ _) as [[newCluster []] [err|]]; try done.
    rewrite bind_unfold. unfold assign.
    by destruct (Index resources !! ClusterType).
Qed.

Lemma extendEntry_route resources resultErr nameOrSNI r h :
  extendEntry b config (resources, resultErr) (nameOrSNI, MRoute r) h =
  if routeMatches config nameOrSNI then
    match PatchRoute (Extension b) config r with
    | (_, _, Some err) =>
        (Ok (resources, multierror_Append resultErr (Errorf "error patching route" err)),
         h, [CallPatchRoute nameOrSNI r])
    | (newRoute, true, None) =>
        match Index resources !! RouteType with
        | Some m =>
            (Ok ({| Index := <[RouteType := <[nameOrSNI := MRoute newRoute]> m]>
                               (Index resources) |}, resultErr),
             h, [CallPatchRoute nameOrSNI r])
        | None => (Panic nil_map_assignment, h, [CallPatchRoute nameOrSNI r])
        end
    | (_, false, None) => (Ok (resources, resultErr), h, [CallPatchRoute nameOrSNI r])
    end
  else (Ok (resources, resultErr), h, []).
Proof.
  unfold extendEntry, routeMatches.
  destruct (IsUpstream config); simpl; [|done].
  destruct (MatchesUpstreamServiceSNI config nameOrSNI); simpl.
  - rewrite bind_unfold. simpl.
    destruct (PatchRoute _ _ _) as [[newRoute []] [err|]]; try done.
    rewrite bind_unfold. unfold assign.
    by destruct (Index resources !! RouteType).
  - destruct (bool_decide _); simpl; [|done].
    rewrite bind_unfold. simpl.
    destruct (PatchRoute _ _ _) as [[newRoute []] [err|]]; try done.
    rewrite bind_unfold. unfold assign.
    by destruct (Index resources !! RouteType).
Qed.

Lemma extendEntry_other resources resultErr nameOrSNI goType h :
  extendEntry b config (resources, resultErr) (nameOrSNI, MOther goType) h =
  (Ok (resources,
       multierror_Append resultErr (ErrorfT "unsupported type was skipped" goType)),
   h, []).
Proof. done. Qed.

Lemma extendEntry_listener resources resultErr nameOrSNI l h :
  extendEntry b config (resources, resultErr) (nameOrSNI, MListener l) h =
  match patchListener b config l h with
  | (Ok (_, _, Some err), h1, t1) =>
      (Ok (resources, multierror_Append resultErr (Errorf "error patching listener" err)),
       h1, t1)
  | (Ok (newListener, true, None), h1, t1) =>
      match Index resources !! ListenerType with
      | Some m =>
          (Ok ({| Index := <[ListenerType := <[nameOrSNI := MListener newListener]> m]>
                             (Index resources) |}, resultErr), h1, t1)
      | None => (Panic nil_map_assignment, h1, t1)
      end
  | (Ok (_, false, None), h1, t1) => (Ok (resources, resultErr), h1, t1)
  | (Panic reason, h1, t1) => (Panic reason, h1, t1)
  end.
Proof.
  unfold extendEntry. rewrite bind_unfold.
  destruct (patchListener b config l h)
    as [[[[[newListener [|]] [err|]]|reason] h1] t1]; simpl; rewrite ?app_nil_r; try done.
  rewrite bind_unfold. unfold assign.
  destruct (Index resources !! ListenerType); simpl; by rewrite ?app_nil_r.
Qed.

(** A run to the end of a loop, cut at one of its turns. *)
Lemma forRange_at {A B} (body : A → B → M A) l1 x l2 a h a' h' t :
  forRange body a (l1 ++ x :: l2) h = (Ok a', h', t) →
  ∃ a1 h1 t1 a2 h2 t2 t3,
    forRange body a l1 h = (Ok a1, h1, t1) ∧
    body a1 x h1 = (Ok a2, h2, t2) ∧
    forRange body a2 l2 h2 = (Ok a', h', t3) ∧
    t = t1 ++ t2 ++ t3.
Proof.
  rewrite forRange_app. intros Hrun.
  apply bind_inv_Ok in Hrun as (a1&h1&t1&t23&Hl1&Hrun&->).
  cbn [forRange] in Hrun.
  apply bind_inv_Ok in Hrun as (a2&h2&t2&t3&Hx&Hl2&->).
  by exists a1, h1, t1, a2, h2, t2, t3.
Qed.

(** An invariant of the loop-carried variables and the heap. *)
Lemma forRange_invariant_heap {A B} (P : A → gmap loc FilterChain → Prop)
    (body : A → B → M A) l :
  (∀ a x h a' h' t, x ∈ l → P a h → body a x h = (Ok a', h', t) → P a' h') →
  ∀ a h a' h' t, P a h → forRange body a l h = (Ok a', h', t) → P a' h'.
Proof.
  induction l as [|x l IH]; intros Hbody a h a' h' t Ha; simpl.
  - by intros [= <- <- _].
  - intros Hrun. apply bind_inv_Ok in Hrun as (a1&h1&t1&t2&Hx&Hl&_).
    eapply IH; [|by eapply Hbody; [left|..]|done].
    intros ???????. apply Hbody. by right.
Qed.

End turns.

(** ** The entries a pass visits *)
Section visits.
Context `{XdsCommon}.
Variable b : BasicEnvoyExtender.
Variable config : RuntimeConfig.
Variable range : gmap string Message → list (string * Message).
Hypothesis range_perm : ∀ m, range m ≡ₚ map_to_list m.

Lemma elem_of_visited resources nameOrSNI msg :
  (nameOrSNI, msg) ∈ visited range resources ↔
  ∃ indexType, indexType ∈ indexTypes ∧ entry_at resources indexType nameOrSNI = Some msg.
Proof.
  unfold visited. rewrite list_elem_of_bind. split.
  - intros (T&Hin&HT). exists T. split; [done|].
    apply (elem_of_range range range_perm) in Hin. by rewrite <-indexOf_lookup.
  - intros (T&HT&Hentry). exists T. split; [|done].
    apply (elem_of_range range range_perm). by rewrite indexOf_lookup.
Qed.

Lemma visited_slot resources entry indexType nameOrSNI :
  wellTagged resources →
  entry ∈ visited range resources →
  slotOf entry = Some (indexType, nameOrSNI) →
  entry.1 = nameOrSNI ∧ entry_at resources indexType nameOrSNI = Some entry.2.
Proof.
  intros Htag Hin Hslot. destruct entry as [k msg].
  apply elem_of_visited in Hin as (T&HT&Hentry).
  unfold wellTagged in Htag. rewrite Forall_forall in Htag.
  specialize (Htag T HT k msg). rewrite indexOf_lookup in Htag.
  specialize (Htag Hentry). unfold slotOf in Hslot. simpl in *.
  destruct msg; simpl in *; simplify_eq; done.
Qed.

Lemma slots_of_tagged es indexType :
  NoDup es.*1 →
  Forall (λ entry, tagAgrees indexType entry.2) es →
  NoDup (omap slotOf es) ∧ ∀ s, s ∈ omap slotOf es → s.1 = indexType ∧ s.2 ∈ es.*1.
Proof.
  induction es as [|[k msg] es IH]; intros Hnd Htag.
  - split; [constructor|]. intros s Hs. by apply elem_of_nil in Hs.
  - cbn in Hnd. apply NoDup_cons in Hnd as [Hk Hnd]. apply Forall_cons in Htag as [Hmsg Htag].
    destruct (IH Hnd Htag) as [IHnd IHin].
    assert (∀ s, s ∈ omap slotOf es → s.1 = indexType ∧ s.2 ∈ (k :: es.*1)) as IHin'.
    { intros s Hs. destruct (IHin s Hs). split; [done|by right]. }
    cbn [omap list_omap]. unfold slotOf at 1 3. simpl in *.
    destruct msg; simpl in *; try (split; [|done]); try done.
    all: split;
      [apply NoDup_cons; split; [|done]; intros Hs; apply IHin in Hs as [_ Hs]; done
      |intros s Hs; apply elem_of_cons in Hs as [->|Hs]; [split; [done|by left]|by apply IHin']].
Qed.

Lemma NoDup_slots resources :
  wellTagged resources → NoDup (omap slotOf (visited range resources)).
Proof.
  intros Htag. destruct indexTypes_distinct as (HLR&HLC&HRC).
  unfold visited, indexTypes. rewrite !bind_cons.
  change (@mbind list _ _ _ _ []) with (@nil (string * Message)).
  rewrite app_nil_r, !omap_app.
  destruct (slots_of_tagged (range (indexOf resources ListenerType)) ListenerType)
    as [HndL HinL];
    [apply (NoDup_fst_range range range_perm)
    |apply (wellTagged_range range range_perm); [done|set_solver]|].
  destruct (slots_of_tagged (range (indexOf resources RouteType)) RouteType)
    as [HndR HinR];
    [apply (NoDup_fst_range range range_perm)
    |apply (wellTagged_range range range_perm); [done|set_solver]|].
  destruct (slots_of_tagged (range (indexOf resources ClusterType)) ClusterType)
    as [HndC HinC];
    [apply (NoDup_fst_range range range_perm)
    |apply (wellTagged_range range range_perm); [done|set_solver]|].
  apply NoDup_app. split; [done|]. split.
  - intros s HsL Hs. apply HinL in HsL as [HL _].
    apply elem_of_app in Hs as [Hs|Hs]; [apply HinR in Hs as [HR _]|apply HinC in Hs as [HC _]];
      congruence.
  - apply NoDup_app. split; [done|]. split; [|done].
    intros s HsR HsC. apply HinR in HsR as [HR _]. apply HinC in HsC as [HC _]. congruence.
Qed.

Lemma entryWrite_slot nameOrSNI msg indexType v :
  entryWrite b config nameOrSNI msg indexType v →
  slotOf (nameOrSNI, msg) = Some (indexType, nameOrSNI).
Proof. by destruct 1. Qed.

(** A turn writes at most the slot of its entry. *)
Lemma extendEntry_frame_slot acc entry h acc' h' t indexType nameOrSNI :
  extendEntry b config acc entry h = (Ok acc', h', t) →
  slotOf entry ≠ Some (indexType, nameOrSNI) →
  entry_at acc'.1 indexType nameOrSNI = entry_at acc.1 indexType nameOrSNI.
Proof.
  destruct acc as [res e], acc' as [res' e'], entry as [k msg]. simpl.
  intros Hrun Hslot.
  apply extendEntry_index in Hrun as [->|(T&v&m&Hw&Hm&Hidx)]; [done|].
  rewrite (entry_at_write _ _ _ _ _ _ _ _ Hm Hidx).
  apply decide_False. intros [<- <-]. apply Hslot. by eapply entryWrite_slot.
Qed.

Lemma forRange_extendEntry_frame_slot es acc h acc' h' t indexType nameOrSNI :
  Some (indexType, nameOrSNI) ∉ slotOf <$> es →
  forRange (extendEntry b config) acc es h = (Ok acc', h', t) →
  entry_at acc'.1 indexType nameOrSNI = entry_at acc.1 indexType nameOrSNI.
Proof.
  intros Hslots.
  apply (forRange_invariant
           (λ a, entry_at a.1 indexType nameOrSNI = entry_at acc.1 indexType nameOrSNI));
    [|done].
  intros a x h1 a' h2 t1 Hx Ha Hrun. rewrite <-Ha.
  eapply extendEntry_frame_slot; [done|].
  intros Hs. apply Hslots. rewrite <-Hs. by apply list_elem_of_fmap_2.
Qed.

Lemma omap_slot_notin (es : list (string * Message)) (s : string * string) :
  s ∉ omap slotOf es → Some s ∉ slotOf <$> es.
Proof.
  intros Hs Hin. apply Hs. apply list_elem_of_fmap in Hin as (x&Hx&Hin).
  apply list_elem_of_omap. by exists x.
Qed.

(** The turn of a visited entry, with the state of its slot before and after
    the turn related to the given and the returned resource set. *)
Lemma Extend_turn resources h resources' err h' t entry indexType nameOrSNI :
  wellTagged resources →
  Kind config = ServiceKindTerminatingGateway ∨ Kind config = ServiceKindConnectProxy →
  CanApply (Extension b) config = true →
  Extend b config range resources h = (Ok (resources', err), h', t) →
  entry ∈ visited range resources →
  slotOf entry = Some (indexType, nameOrSNI) →
  ∃ res1 e1 h1 t1 res2 e2 h2 t2 t3,
    extendEntry b config (res1, e1) entry h1 = (Ok (res2, e2), h2, t2) ∧
    t = t1 ++ t2 ++ t3 ∧
    entry_at res1 indexType nameOrSNI = entry_at resources indexType nameOrSNI ∧
    entry_at resources' indexType nameOrSNI = entry_at res2 indexType nameOrSNI.
Proof.
  intros Htag Hkind Hcan Hrun Hin Hslot.
  rewrite (Extend_flat b config range range_perm) in Hrun by done.
  pose proof (NoDup_slots resources Htag) as Hnd.
  apply list_elem_of_split in Hin as (l1&l2&Hsplit). rewrite Hsplit in Hrun, Hnd.
  rewrite omap_app in Hnd. cbn [omap list_omap] in Hnd. rewrite Hslot in Hnd.
  apply NoDup_app in Hnd as (_&Hl1&Hnd). apply NoDup_cons in Hnd as [Hl2 _].
  apply forRange_at in Hrun
    as ([res1 e1]&h1&t1&[res2 e2]&h2&t2&t3&Hrun1&Hturn&Hrun2&Ht).
  exists res1, e1, h1, t1, res2, e2, h2, t2, t3. split; [done|]. split; [done|]. split.
  - eapply (forRange_extendEntry_frame_slot l1) in Hrun1; [done|].
    apply omap_slot_notin. intros Hs. by apply (Hl1 _ Hs); left.
  - eapply (forRange_extendEntry_frame_slot l2) in Hrun2; [done|].
    by apply omap_slot_notin.
Qed.

End visits.

(** ** Outcomes of a pass, resource by resource *)

(** On a well-tagged resource set, every cluster of the Cluster index whose
    name passes the cluster guard is passed to PatchCluster, and the returned
    set holds under the same name the cluster PatchCluster returned when it
    reported a change without an error, and the given cluster otherwise. *)
Lemma Extend_cluster_outcome `{XdsCommon} b config range resources h
    resources' err h' t nameOrSNI cluster :
  (∀ m, range m ≡ₚ map_to_list m) →
  wellTagged resources →
  Kind config = ServiceKindTerminatingGateway ∨ Kind config = ServiceKindConnectProxy →
  CanApply (Extension b) config = true →
  Extend b config range resources h = (Ok (resources', err), h', t) →
  entry_at resources ClusterType nameOrSNI = Some (MCluster cluster) →
  clusterMatches config nameOrSNI = true →
  CallPatchCluster nameOrSNI cluster ∈ t ∧
  entry_at resources' ClusterType nameOrSNI = Some (MCluster (keptCluster b config cluster)).
Proof.
  intros Hrange Htag Hkind Hcan Hrun Hentry Hscope.
  destruct (Extend_turn b config range Hrange resources h resources' err h' t
              (nameOrSNI, MCluster cluster) ClusterType nameOrSNI)
    as (res1&e1&h1&t1&res2&e2&h2&t2&t3&Hturn&->&Hpre&Hpost); try done.
  { apply (elem_of_visited range Hrange). exists ClusterType. split; [|done].
    unfold indexTypes. repeat constructor. }
  rewrite Hpost. rewrite Hentry in Hpre. clear Hpost Hrun.
  rewrite extendEntry_cluster, Hscope in Hturn. unfold keptCluster.
  destruct (PatchCluster (Extension b) config cluster) as [[newCluster [|]] [e|]].
  - injection Hturn as <- _ _ <-. split; [set_solver|done].
  - destruct (Index res1 !! ClusterType) as [m|] eqn:Hm; [|done].
    injection Hturn as <- _ _ <-. split; [set_solver|].
    unfold entry_at. simpl. rewrite lookup_insert_eq. simpl. by rewrite lookup_insert_eq.
  - injection Hturn as <- _ _ <-. split; [set_solver|done].
  - injection Hturn as <- _ _ <-. split; [set_solver|done].
Qed.


(** On a well-tagged resource set, every route of the Route index whose
    name passes the route guard is passed to PatchRoute, and the returned set
    holds under the same name the route PatchRoute returned when it reported a
    change without an error, and the given route otherwise. *)
Lemma Extend_route_outcome `{XdsCommon} b config range resources h
    resources' err h' t nameOrSNI route :
  (∀ m, range m ≡ₚ map_to_list m) →
  wellTagged resources →
  Kind config = ServiceKindTerminatingGateway ∨ Kind config = ServiceKindConnectProxy →
  CanApply (Extension b) config = true →
  Extend b config range resources h = (Ok (resources', err), h', t) →
  entry_at resources RouteType nameOrSNI = Some (MRoute route) →
  routeMatches config nameOrSNI = true →
  CallPatchRoute nameOrSNI route ∈ t ∧
  entry_at resources' RouteType nameOrSNI = Some (MRoute (keptRoute b config route)).
Proof.
  intros Hrange Htag Hkind Hcan Hrun Hentry Hscope.
  destruct (Extend_turn b config range Hrange resources h resources' err h' t
              (nameOrSNI, MRoute route) RouteType nameOrSNI)
    as (res1&e1&h1&t1&res2&e2&h2&t2&t3&Hturn&->&Hpre&Hpost); try done.
  { apply (elem_of_visited range Hrange). exists RouteType. split; [|done].
    unfold indexTypes. repeat constructor. }
  rewrite Hpost. rewrite Hentry in Hpre. clear Hpost Hrun.
  rewrite extendEntry_route, Hscope in Hturn. unfold keptRoute.
  destruct (PatchRoute (Extension b) config route) as [[newRoute [|]] [e|]].
  - injection Hturn as <- _ _ <-. split; [set_solver|done].
  - destruct (Index res1 !! RouteType) as [m|] eqn:Hm; [|done].
    injection Hturn as <- _ _ <-. split; [set_solver|].
    unfold entry_at. simpl. rewrite lookup_insert_eq. simpl. by rewrite lookup_insert_eq.
  - injection Hturn as <- _ _ <-. split; [set_solver|done].
  - injection Hturn as <- _ _ <-. split; [set_solver|done].
Qed.


(** ** The aggregate error *)
Section aggregate.
Context `{XdsCommon}.
Variable b : BasicEnvoyExtender.
Variable config : RuntimeConfig.

Lemma errorsOf_Append r e :
  errorsOf (multierror_Append r e) =
  errorsOf r ++ match e with MultiError es => es | _ => [e] end.
Proof. by destruct r as [[]|]. Qed.

Lemma errorsOf_Append_notMulti r e :
  notMulti e → errorsOf (multierror_Append r e) = errorsOf r ++ [e].
Proof. intros He. rewrite errorsOf_Append. by destruct e. Qed.

Lemma Mentioned_Append_old r x e :
  Mentioned r e → Mentioned (multierror_Append r x) e.
Proof.
  intros (e0&Hin&Hm). exists e0. split; [|done].
  rewrite errorsOf_Append. apply elem_of_app. by left.
Qed.

Lemma Mentioned_Append_new r x e :
  notMulti x → mentions x e → Mentioned (multierror_Append r x) e.
Proof.
  intros Hx Hm. exists x. split; [|done].
  rewrite errorsOf_Append_notMulti by done. apply elem_of_app. right. by left.
Qed.

Lemma Mentioned_appendAll_old r (xs : list error) e :
  Mentioned r e → Mentioned (appendAll r xs) e.
Proof.
  revert r. induction xs as [|x xs IH]; intros r Hr; [done|].
  change (appendAll r (x :: xs)) with (appendAll (multierror_Append r x) xs).
  apply IH. by apply Mentioned_Append_old.
Qed.

Lemma Mentioned_appendAll_new r (xs : list error) x e :
  Forall notMulti xs → x ∈ xs → mentions x e → Mentioned (appendAll r xs) e.
Proof.
  revert r. induction xs as [|y xs IH]; intros r Hxs Hin Hm; [by apply elem_of_nil in Hin|].
  apply Forall_cons in Hxs as [Hy Hxs].
  change (appendAll r (y :: xs)) with (appendAll (multierror_Append r y) xs).
  apply elem_of_cons in Hin as [->|Hin].
  - apply Mentioned_appendAll_old. by apply Mentioned_Append_new.
  - by apply IH.
Qed.

Lemma appendAll_app r (xs ys : list error) :
  appendAll r (xs ++ ys) = appendAll (appendAll r xs) ys.
Proof. unfold appendAll. by rewrite foldl_app. Qed.

Lemma appendAll_Multi es (xs : list error) :
  ∃ es', appendAll (Some (MultiError es)) xs = Some (MultiError es').
Proof.
  revert es. induction xs as [|x xs IH]; intros es; [by exists es|].
  change (appendAll (Some (MultiError es)) (x :: xs))
    with (appendAll (multierror_Append (Some (MultiError es)) x) xs).
  simpl. apply IH.
Qed.

Lemma appendAll_MultiError r (xs : list error) :
  xs ≠ [] → ∃ es, appendAll r xs = Some (MultiError es).
Proof.
  destruct xs as [|x xs]; [done|]. intros _.
  change (appendAll r (x :: xs)) with (appendAll (multierror_Append r x) xs).
  assert (∃ es, multierror_Append r x = Some (MultiError es)) as [es ->]
    by (destruct r as [[]|]; simpl; eauto).
  apply appendAll_Multi.
Qed.

Lemma recordedError_filter f :
  recordedError b config (CallPatchFilter f) = filterError b config f.
Proof.
  unfold recordedError, callError, filterError.
  by destruct (PatchFilter (Extension b) config f) as [[? ?] [?|]].
Qed.

Lemma omap_recordedError_filters (fs : list Filter) :
  omap (recordedError b config) (CallPatchFilter <$> fs) = omap (filterError b config) fs.
Proof.
  induction fs as [|f fs IH]; [done|].
  cbn [fmap list_fmap omap list_omap]. rewrite recordedError_filter, IH. done.
Qed.

Lemma recordedError_notMulti c e : recordedError b config c = Some e → notMulti e.
Proof.
  unfold recordedError. destruct c; destruct (callError _ _ _); intros [= <-]; done.
Qed.

Lemma recordedError_mentions c e :
  callError b config c = Some e →
  ∃ x, recordedError b config c = Some x ∧ mentions x e.
Proof.
  intros He. unfold recordedError. rewrite He.
  destruct c; eexists; (split; [done|]); apply mentions_Errorf, mentions_refl.
Qed.

Lemma Forall_notMulti_recorded (t : list Call) : Forall notMulti (omap (recordedError b config) t).
Proof.
  apply Forall_forall. intros e He. apply list_elem_of_omap in He as (c&_&Hc).
  by eapply recordedError_notMulti.
Qed.

(** The error a chain loop returns is built from the errors recorded for its
    calls, in order. *)
Lemma forRange_chainBody_error sel ps patched r h patched' r' h' t :
  forRange (chainBody b config sel) (patched, r) ps h = (Ok (patched', r'), h', t) →
  r' = appendAll r (omap (recordedError b config) t).
Proof.
  revert patched r h t. induction ps as [|p ps IH]; intros patched r h t.
  - by intros [= _ <- _ <-].
  - cbn [forRange]. intros Hrun.
    apply bind_inv_Ok in Hrun as ([patched1 r1]&h1&t1&t2&Hturn&Hrest&->).
    apply IH in Hrest as ->. rewrite omap_app, appendAll_app. f_equal.
    rewrite chainBody_run in Hturn.
    destruct (sel (h !! p)) as [[]|reason]; [|by injection Hturn as _ <- _ <-|done].
    destruct (h !! p) as [chain|] eqn:Hp.
    + rewrite (patchChainFilters_run _ _ _ chain) in Hturn by done.
      injection Hturn as _ <- _ <-. by rewrite omap_recordedError_filters.
    + by rewrite patchChainFilters_nil in Hturn.
Qed.

Lemma patchListener_error l h l' patched errL h' t :
  patchListener b config l h = (Ok (l', patched, errL), h', t) →
  errL = appendAll None (omap (recordedError b config) t).
Proof.
  unfold patchListener, patchTerminatingGatewayListener, patchConnectProxyListener,
    patchTProxyListener.
  intros Hrun.
  assert (∀ body sel,
            (∀ a x h, body a x h = chainBody b config sel a x h) →
            (forRange body (false, None) (FilterChains l) ≫=
               λ '(patched, resultErr), mret (l, patched, resultErr)) h
            = (Ok (l', patched, errL), h', t) →
            errL = appendAll None (omap (recordedError b config) t)) as Hloop.
  { intros body sel Hbody Hr. rewrite bind_unfold in Hr.
    rewrite (forRange_ext _ _ _ _ _ Hbody) in Hr.
    destruct (forRange (chainBody b config sel) (false, None) (FilterChains l) h)
      as [[[[patched1 r1]|reason] h1] t1] eqn:Hl; [|done].
    apply forRange_chainBody_error in Hl. simpl in Hr.
    injection Hr as _ _ <- _ <-. by rewrite app_nil_r. }
  destruct (Kind config); [| |by injection Hrun as _ _ <- _ <-].
  - destruct (negb (IsUpstream config)); [by injection Hrun as _ _ <- _ <-|].
    eapply Hloop; [|done]. apply terminatingGatewayChain_chainBody.
  - destruct (_ && _).
    { eapply Hloop; [|done]. apply tproxyChain_chainBody. }
    destruct (_ && _); [by injection Hrun as _ _ <- _ <-|].
    destruct (_ && _); [by injection Hrun as _ _ <- _ <-|].
    eapply Hloop; [|done]. apply connectProxyChain_chainBody.
Qed.

(** What one turn adds to the aggregate. *)
Lemma appendAll_quiet (t : list Call) r :
  (∀ c, c ∈ t → callError b config c = None) →
  appendAll r (omap (recordedError b config) t) = r.
Proof.
  intros Hq. assert (omap (recordedError b config) t = []) as ->; [|done].
  induction t as [|c t IH]; [done|]. cbn [omap list_omap].
  assert (recordedError b config c = None) as ->.
  { unfold recordedError. rewrite (Hq c) by (by left). by destruct c. }
  apply IH. intros c' Hc'. apply Hq. by right.
Qed.

Lemma extendEntry_accounts resources r nameOrSNI msg h resources' r' h' t :
  extendEntry b config (resources, r) (nameOrSNI, msg) h = (Ok (resources', r'), h', t) →
  turnAccounts b config r r' t msg.
Proof.
  destruct msg as [c|l|rt|goType].
  - rewrite extendEntry_cluster.
    destruct (clusterMatches config nameOrSNI);
      [|intros [= _ <- _ <-]; repeat split; try done; set_solver].
    destruct (PatchCluster (Extension b) config c) as [[newCluster patched] [e|]] eqn:Hp.
    + destruct patched; intros [= _ <- _ <-]; (repeat split; try done).
      all: try (intros e0; apply Mentioned_Append_old).
      all: try (intros c0 e0 Hc0 He0; apply list_elem_of_singleton in Hc0 as ->;
                unfold callError in He0; rewrite Hp in He0; simpl in He0; simplify_eq;
                apply Mentioned_Append_new; [done|apply mentions_Errorf, mentions_refl]).
      all: intros Hq _; specialize (Hq _ (list_elem_of_here _ _));
        unfold callError in Hq; rewrite Hp in Hq; done.
    + destruct patched.
      * destruct (Index resources !! ClusterType); [|done].
        intros [= _ <- _ <-]. repeat split; try done.
        intros c0 e0 Hc0 He0. apply list_elem_of_singleton in Hc0 as ->.
        unfold callError in He0. by rewrite Hp in He0.
      * intros [= _ <- _ <-]. repeat split; try done.
        intros c0 e0 Hc0 He0. apply list_elem_of_singleton in Hc0 as ->.
        unfold callError in He0. by rewrite Hp in He0.
  - rewrite extendEntry_listener.
    destruct (patchListener b config l h)
      as [[[[[newListener patched] errL]|reason] h1] t1] eqn:Hl; [|done].
    pose proof (patchListener_error _ _ _ _ _ _ _ Hl) as HerrL.
    assert (∀ r2, r2 = r →
              (∀ c, c ∈ t1 → callError b config c = None) → turnAccounts b config r r2 t1 (MListener l))
      as Hquiet.
    { intros r2 -> Hq. repeat split; try done.
      intros c e Hc He. rewrite Hq in He; done. }
    destruct errL as [errL|].
    + intros Hrun.
      assert ((Ok (resources, multierror_Append r (Errorf "error patching listener" errL)),
               h1, t1) = (Ok (resources', r'), h', t)) as [= _ <- _ <-]
        by (by destruct patched).
      clear Hrun. repeat split; try done.
      * intros e. apply Mentioned_Append_old.
      * intros c e Hc He. apply Mentioned_Append_new; [done|].
        apply mentions_Errorf.
        destruct (recordedError_mentions c e He) as (x&Hx&Hm).
        assert (Mentioned (Some errL) e) as (e0&He0&Hm0).
        { rewrite HerrL. eapply Mentioned_appendAll_new; [apply Forall_notMulti_recorded| |done].
          apply list_elem_of_omap. by exists c. }
        assert (∃ es, errL = MultiError es) as [es ->].
        { destruct (appendAll_MultiError None (omap (recordedError b config) t1))
            as [es Hes]; [|rewrite Hes in HerrL; injection HerrL as ->; by exists es].
          intros Hnil. by rewrite Hnil in HerrL. }
        simpl in He0. by eapply mentions_MultiError.
      * intros Hq _. exfalso. rewrite appendAll_quiet in HerrL; done.
    + assert (∀ c, c ∈ t1 → callError b config c = None) as Hq.
      { intros c Hc. destruct (callError b config c) as [e|] eqn:He; [|done].
        destruct (recordedError_mentions c e He) as (x&Hx&Hm).
        assert (Mentioned None e) as (e0&He0&_).
        { rewrite HerrL. eapply Mentioned_appendAll_new; [apply Forall_notMulti_recorded| |done].
          apply list_elem_of_omap. by exists c. }
        by apply elem_of_nil in He0. }
      destruct patched.
      * destruct (Index resources !! ListenerType); [|done].
        intros [= _ <- _ <-]. by apply Hquiet.
      * intros [= _ <- _ <-]. by apply Hquiet.
  - rewrite extendEntry_route.
    destruct (routeMatches config nameOrSNI);
      [|intros [= _ <- _ <-]; repeat split; try done; set_solver].
    destruct (PatchRoute (Extension b) config rt) as [[newRoute patched] [e|]] eqn:Hp.
    + destruct patched; intros [= _ <- _ <-]; (repeat split; try done).
      all: try (intros e0; apply Mentioned_Append_old).
      all: try (intros c0 e0 Hc0 He0; apply list_elem_of_singleton in Hc0 as ->;
                unfold callError in He0; rewrite Hp in He0; simpl in He0; simplify_eq;
                apply Mentioned_Append_new; [done|apply mentions_Errorf, mentions_refl]).
      all: intros Hq _; specialize (Hq _ (list_elem_of_here _ _));
        unfold callError in Hq; rewrite Hp in Hq; done.
    + destruct patched.
      * destruct (Index resources !! RouteType); [|done].
        intros [= _ <- _ <-]. repeat split; try done.
        intros c0 e0 Hc0 He0. apply list_elem_of_singleton in Hc0 as ->.
        unfold callError in He0. by rewrite Hp in He0.
      * intros [= _ <- _ <-]. repeat split; try done.
        intros c0 e0 Hc0 He0. apply list_elem_of_singleton in Hc0 as ->.
        unfold callError in He0. by rewrite Hp in He0.
  - rewrite extendEntry_other. intros [= _ <- _ <-]. repeat split; try done.
    + intros e. apply Mentioned_Append_old.
    + intros c e Hc. by apply elem_of_nil in Hc.
    + intros ty [= <-]. apply Mentioned_Append_new; [done|apply mentions_refl].
    + intros _ Hno. by destruct (Hno goType).
Qed.

End aggregate.

Section aggregate_loops.
Context `{XdsCommon}.
Variable b : BasicEnvoyExtender.
Variable config : RuntimeConfig.

Lemma forRange_passMentions {B} (body : IndexedResources * option error → B →
                                          M (IndexedResources * option error)) l :
  (∀ a x h a' h' t, body a x h = (Ok a', h', t) → passMentions b config a a' t) →
  ∀ a h a' h' t, forRange body a l h = (Ok a', h', t) → passMentions b config a a' t.
Proof.
  intros Hbody. induction l as [|x l IH]; intros a h a' h' t.
  - intros [= <- _ <-]. split; [done|]. intros c e Hc. by apply elem_of_nil in Hc.
  - cbn [forRange]. intros Hrun.
    apply bind_inv_Ok in Hrun as (a1&h1&t1&t2&Hx&Hl&->).
    apply Hbody in Hx as [Hmono1 Hment1]. apply IH in Hl as [Hmono2 Hment2].
    split; [by intros e He; apply Hmono2, Hmono1|].
    intros c e Hc He. apply elem_of_app in Hc as [Hc|Hc]; [|by eapply Hment2].
    apply Hmono2. by eapply Hment1.
Qed.

Lemma extendEntry_passMentions a x h a' h' t :
  extendEntry b config a x h = (Ok a', h', t) → passMentions b config a a' t.
Proof.
  destruct a as [res r], a' as [res' r'], x as [k msg]. intros Hrun.
  apply extendEntry_accounts in Hrun as (Hmono&Hment&_). by split.
Qed.

Lemma Extend_passMentions range resources h resources' err h' t :
  Extend b config range resources h = (Ok (resources', err), h', t) →
  passMentions b config (resources, None) (resources', err) t.
Proof.
  unfold Extend.
  assert (∀ a h a' h' t,
            forRange (extendType b config range) a indexTypes h = (Ok a', h', t) →
            passMentions b config a a' t) as Hloop.
  { apply forRange_passMentions. intros [res r] indexType h1 a' h2 t1. unfold extendType.
    apply forRange_passMentions. apply extendEntry_passMentions. }
  assert (passMentions b config (resources, None) (resources, None) []) as Hnone.
  { split; [done|]. intros c e Hc. by apply elem_of_nil in Hc. }
  destruct (Kind config); [| |by intros [= <- <- _ <-]];
    (destruct (negb _); [by intros [= <- <- _ <-]|apply Hloop]).
Qed.

(** The aggregate over one loop on a list of entries. *)
Lemma forRange_extendEntry_accounts es resources r h resources' r' h' t :
  forRange (extendEntry b config) (resources, r) es h = (Ok (resources', r'), h', t) →
  (∀ nameOrSNI goType,
     (nameOrSNI, MOther goType) ∈ es →
     Mentioned r' (ErrorfT "unsupported type was skipped" goType)) ∧
  ((∀ c, c ∈ t → callError b config c = None) →
   (∀ nameOrSNI goType, (nameOrSNI, MOther goType) ∉ es) →
   r' = r).
Proof.
  revert resources r h t. induction es as [|[k msg] es IH]; intros resources r h t.
  - intros [= _ <- _ <-]. split; [|done]. intros ?? Hin. by apply elem_of_nil in Hin.
  - cbn [forRange]. intros Hrun.
    apply bind_inv_Ok in Hrun as ([res1 r1]&h1&t1&t2&Hx&Hl&->).
    pose proof (forRange_passMentions _ es (extendEntry_passMentions) _ _ _ _ _ Hl)
      as [Hmono _].
    apply extendEntry_accounts in Hx as (_&_&Hother&Hquiet).
    apply IH in Hl as [IHother IHquiet]. split.
    + intros k' ty Hin. apply elem_of_cons in Hin as [[= -> <-]|Hin]; [|by eapply IHother].
      apply Hmono. simpl. by apply Hother.
    + intros Hq Hno. rewrite IHquiet.
      * apply Hquiet; [intros c Hc; apply Hq; set_solver|].
        intros ty Heq. subst msg. apply (Hno k ty). by left.
      * intros c Hc. apply Hq. set_solver.
      * intros k' ty Hin. apply (Hno k' ty). by right.
Qed.

End aggregate_loops.

(** Every error a patch call returned during a pass that ran to its end
    is held by the aggregate: the aggregate holds an error that wraps it,
    directly or inside the error recorded for its listener. *)
Lemma Extend_error_mentions_failures `{XdsCommon} b config range resources h
    resources' err h' t c e :
  Extend b config range resources h = (Ok (resources', err), h', t) →
  c ∈ t →
  callError b config c = Some e →
  Mentioned err e.
Proof.
  intros Hrun Hc He. apply Extend_passMentions in Hrun as [_ Hment]. by eapply Hment.
Qed.


(** On a well-tagged resource set the aggregate of a pass that ran to its
    end is nil exactly when no patch call returned an error and none of the
    three maps holds a payload of an unsupported type. *)
Lemma Extend_error_nil_iff `{XdsCommon} b config range resources h
    resources' err h' t :
  (∀ m, range m ≡ₚ map_to_list m) →
  wellTagged resources →
  Kind config = ServiceKindTerminatingGateway ∨ Kind config = ServiceKindConnectProxy →
  CanApply (Extension b) config = true →
  Extend b config range resources h = (Ok (resources', err), h', t) →
  err = None ↔
  (∀ c, c ∈ t → callError b config c = None) ∧
  (∀ indexType nameOrSNI goType,
     indexType ∈ indexTypes →
     entry_at resources indexType nameOrSNI ≠ Some (MOther goType)).
Proof.
  intros Hrange Htag Hkind Hcan Hrun.
  pose proof (Extend_passMentions _ _ _ _ _ _ _ _ _ Hrun) as [_ Hment].
  rewrite (Extend_flat b config range Hrange) in Hrun by done.
  apply forRange_extendEntry_accounts in Hrun as [Hother Hquiet].
  split.
  - intros ->. split.
    + intros c Hc. destruct (callError b config c) as [e|] eqn:He; [|done].
      destruct (Hment c e Hc He) as (e0&He0&_). by apply elem_of_nil in He0.
    + intros T k ty HT Hentry.
      destruct (Hother k ty) as (e0&He0&_); [|by apply elem_of_nil in He0].
      apply (elem_of_visited range Hrange). by exists T.
  - intros [Hq Hno]. apply Hquiet; [done|].
    intros k ty Hin. apply (elem_of_visited range Hrange) in Hin as (T&HT&Hentry).
    by apply (Hno T k ty).
Qed.

Section held_errors.
Context `{XdsCommon}.
Variable b : BasicEnvoyExtender.
Variable config : RuntimeConfig.

Lemma extendEntry_error_step resources r nameOrSNI msg h resources' r' h' t :
  extendEntry b config (resources, r) (nameOrSNI, msg) h = (Ok (resources', r'), h', t) →
  r' = r ∨ ∃ x, notMulti x ∧ r' = multierror_Append r x.
Proof.
  destruct msg as [c|l|rt|goType];
    [rewrite extendEntry_cluster|rewrite extendEntry_listener
    |rewrite extendEntry_route|rewrite extendEntry_other];
    repeat case_match; intros Hr; try discriminate Hr;
    injection Hr as _ <- _ _;
    first [by left | right; eexists; split; [|reflexivity]; done].
Qed.

Lemma forRange_extendEntry_held es a h a' h' t e :
  forRange (extendEntry b config) a es h = (Ok a', h', t) →
  e ∈ errorsOf a.2 → e ∈ errorsOf a'.2.
Proof.
  intros Hrun He. revert Hrun.
  apply (forRange_invariant (λ a, e ∈ errorsOf a.2)); [|done].
  intros [res r] [k msg] h1 [res' r'] h2 t1 _ Hr Hturn. simpl in *.
  apply extendEntry_error_step in Hturn as [->|(x&Hx&->)]; [done|].
  rewrite errorsOf_Append. apply elem_of_app. by left.
Qed.

End held_errors.

(** On a well-tagged resource set every payload of an unsupported type
    held by one of the three maps is reported: the aggregate of a pass that
    ran to its end holds the error "unsupported type was skipped" for its Go
    type. *)
Lemma Extend_reports_unsupported `{XdsCommon} b config range resources h
    resources' err h' t indexType nameOrSNI goType :
  (∀ m, range m ≡ₚ map_to_list m) →
  wellTagged resources →
  Kind config = ServiceKindTerminatingGateway ∨ Kind config = ServiceKindConnectProxy →
  CanApply (Extension b) config = true →
  Extend b config range resources h = (Ok (resources', err), h', t) →
  indexType ∈ indexTypes →
  entry_at resources indexType nameOrSNI = Some (MOther goType) →
  ErrorfT "unsupported type was skipped" goType ∈ errorsOf err.
Proof.
  intros Hrange Htag Hkind Hcan Hrun HT Hentry.
  rewrite (Extend_flat b config range Hrange) in Hrun by done.
  assert ((nameOrSNI, MOther goType) ∈ visited range resources) as Hin.
  { apply (elem_of_visited range Hrange). by exists indexType. }
  apply list_elem_of_split in Hin as (l1&l2&Hsplit). rewrite Hsplit in Hrun.
  apply forRange_at in Hrun
    as ([res1 e1]&h1&t1&[res2 e2]&h2&t2&t3&_&Hturn&Hrun2&_).
  apply (forRange_extendEntry_held b config l2 (res2, e2) h2 (resources', err) h' t3 _ Hrun2).
  rewrite extendEntry_other in Hturn. injection Hturn as _ <- _ _. simpl.
  rewrite errorsOf_Append. apply elem_of_app. right. by left.
Qed.


(** ** The heap keeps its shape *)
Section heap_shape.
Context `{XdsCommon}.
Variable b : BasicEnvoyExtender.
Variable config : RuntimeConfig.

Lemma sameShape_refl h : sameShape h h.
Proof. intros p. by destruct (h !! p). Qed.

Lemma sameShape_trans h1 h2 h3 : sameShape h1 h2 → sameShape h2 h3 → sameShape h1 h3.
Proof.
  intros H12 H23 p. specialize (H12 p). specialize (H23 p).
  destruct (h1 !! p), (h2 !! p), (h3 !! p); try done.
  destruct H12 as [? ?], H23 as [? ?]. split; congruence.
Qed.

Lemma sameShape_insert h p chain chain' :
  h !! p = Some chain → sameChainShape chain chain' → sameShape h (<[p := chain']> h).
Proof.
  intros Hp Hshape q. destruct (decide (p = q)) as [<-|Hne].
  - by rewrite lookup_insert_eq, Hp.
  - rewrite lookup_insert_ne by done. by destruct (h !! q).
Qed.

Lemma heap_bind {A B} (m : M A) (f : A → M B) h :
  heap ((m ≫= f) h) =
  match m h with
  | (Ok a, h1, _) => heap (f a h1)
  | (Panic _, h1, _) => h1
  end.
Proof.
  rewrite bind_unfold. destruct (m h) as [[[a|reason] h1] t1]; [|done].
  by destruct (f a h1) as [[??]?].
Qed.

(** A relation between the heap before and after that every turn keeps is
    kept by the loop, however it ends. *)
Lemma forRange_heap {A B} (R : relation (gmap loc FilterChain)) (body : A → B → M A) l :
  (∀ h, R h h) → (∀ h1 h2 h3, R h1 h2 → R h2 h3 → R h1 h3) →
  (∀ a x h, R h (heap (body a x h))) →
  ∀ a h, R h (heap (forRange body a l h)).
Proof.
  intros Hrefl Htrans Hbody. induction l as [|x l IH]; intros a h; [apply Hrefl|].
  cbn [forRange]. rewrite heap_bind.
  specialize (Hbody a x h). destruct (body a x h) as [[[a1|reason] h1] t1]; [|done].
  eapply Htrans; [exact Hbody|apply IH].
Qed.

Lemma patchChainFilters_shape p patched r h :
  sameShape h (heap (patchChainFilters b config p patched r h)).
Proof.
  destruct (h !! p) as [chain|] eqn:Hp.
  - rewrite (patchChainFilters_run _ _ _ chain) by done.
    apply (sameShape_insert _ _ chain); [done|].
    split; [done|]. simpl. by rewrite length_fmap.
  - rewrite patchChainFilters_nil by done. apply sameShape_refl.
Qed.

Lemma chainBody_shape sel a p h :
  sameShape h (heap (chainBody b config sel a p h)).
Proof.
  destruct a as [patched r]. rewrite chainBody_run.
  destruct (sel (h !! p)) as [[]|reason]; try apply sameShape_refl.
  apply patchChainFilters_shape.
Qed.

Lemma patchListener_shape l h : sameShape h (heap (patchListener b config l h)).
Proof.
  assert (∀ body sel,
            (∀ a x h, body a x h = chainBody b config sel a x h) →
            sameShape h (heap ((forRange body (false, None) (FilterChains l) ≫=
               λ '(patched, resultErr), mret (l, patched, resultErr)) h))) as Hloop.
  { intros body sel Hbody. rewrite heap_bind.
    pose proof (forRange_heap sameShape body (FilterChains l) sameShape_refl sameShape_trans)
      as Hl.
    specialize (Hl (λ a x h, eq_ind_r (λ y, sameShape h (heap y))
                               (chainBody_shape sel a x h) (Hbody a x h)) (false, None) h).
    by destruct (forRange body (false, None) (FilterChains l) h)
      as [[[[patched r]|reason] h1] t1]. }
  unfold patchListener, patchTerminatingGatewayListener, patchConnectProxyListener,
    patchTProxyListener.
  destruct (Kind config); [| |apply sameShape_refl].
  - destruct (negb (IsUpstream config)); [apply sameShape_refl|].
    eapply Hloop, terminatingGatewayChain_chainBody.
  - destruct (_ && _); [eapply Hloop, tproxyChain_chainBody|].
    destruct (_ && _); [apply sameShape_refl|].
    destruct (_ && _); [apply sameShape_refl|].
    eapply Hloop, connectProxyChain_chainBody.
Qed.

Lemma extendEntry_shape a x h : sameShape h (heap (extendEntry b config a x h)).
Proof.
  destruct a as [res r], x as [k [c|l|rt|goType]].
  - rewrite extendEntry_cluster. repeat case_match; apply sameShape_refl.
  - rewrite extendEntry_listener. pose proof (patchListener_shape l h) as Hl.
    destruct (patchListener b config l h) as [[[[[l' patched] errL]|reason] h1] t1];
      repeat case_match; simplify_eq; exact Hl.
  - rewrite extendEntry_route. repeat case_match; apply sameShape_refl.
  - apply sameShape_refl.
Qed.

Lemma Extend_shape range resources h :
  sameShape h (heap (Extend b config range resources h)).
Proof.
  assert (∀ a h, sameShape h (heap (forRange (extendType b config range) a indexTypes h)))
    as Hloop.
  { apply forRange_heap; [apply sameShape_refl|apply sameShape_trans|].
    intros [res r] indexType h1. unfold extendType.
    apply forRange_heap; [apply sameShape_refl|apply sameShape_trans|].
    apply extendEntry_shape. }
  unfold Extend. destruct (Kind config); [| |apply sameShape_refl];
    (destruct (negb _); [apply sameShape_refl|apply Hloop]).
Qed.

End heap_shape.


(** ** Listeners by selection *)
Section listener_selection.
Context `{XdsCommon}.
Variable b : BasicEnvoyExtender.
Variable config : RuntimeConfig.

Lemma patchListener_selection l h :
  patchListener b config l h =
  match listenerSelection config l with
  | Some sel =>
      (forRange (chainBody b config sel) (false, None) (FilterChains l) ≫=
         λ '(patched, resultErr), mret (l, patched, resultErr)) h
  | None => (Ok (l, false, None), h, [])
  end.
Proof.
  assert (∀ body sel,
            (∀ a x h, body a x h = chainBody b config sel a x h) →
            (forRange body (false, None) (FilterChains l) ≫=
               λ '(patched, resultErr), mret (l, patched, resultErr)) h =
            (forRange (chainBody b config sel) (false, None) (FilterChains l) ≫=
               λ '(patched, resultErr), mret (l, patched, resultErr)) h) as Hloop.
  { intros body sel Hbody. rewrite !bind_unfold. by rewrite (forRange_ext _ _ _ _ _ Hbody). }
  unfold patchListener, listenerSelection, patchTerminatingGatewayListener,
    patchConnectProxyListener, patchTProxyListener.
  fold (listenerEnvoyID (Name l)).
  destruct (Kind config); [| |done].
  - destruct (IsUpstream config); simpl; [|done].
    apply Hloop, terminatingGatewayChain_chainBody.
  - destruct (IsUpstream config); simpl.
    + destruct (bool_decide (listenerEnvoyID (Name l) = OutboundListenerName));
        [apply Hloop, tproxyChain_chainBody|].
      destruct (bool_decide (listenerEnvoyID (Name l) = EnvoyID config)); simpl; [|done].
      apply Hloop, connectProxyChain_chainBody.
    + destruct (bool_decide (listenerEnvoyID (Name l) = PublicListenerName)); simpl; [|done].
      apply Hloop, connectProxyChain_chainBody.
Qed.

(** A chain loop that ran to its end made no turn that panics. *)
Lemma forRange_chainBody_safe sel ps patched r h patched' r' h' t :
  NoDup ps →
  forRange (chainBody b config sel) (patched, r) ps h = (Ok (patched', r'), h', t) →
  Forall (turnsSafely sel h) ps.
Proof.
  revert patched r h t. induction ps as [|p ps IH]; intros patched r h t Hnd; [constructor|].
  apply NoDup_cons in Hnd as [Hp Hnd]. cbn [forRange]. intros Hrun.
  apply bind_inv_Ok in Hrun as ([patched1 r1]&h1&t1&t2&Hturn&Hrest&_).
  rewrite chainBody_run in Hturn. apply IH in Hrest; [|done].
  unfold turnsSafely at 1. apply Forall_cons.
  destruct (sel (h !! p)) as [[]|reason] eqn:Hsel; [| |done].
  - destruct (h !! p) as [chain|] eqn:Hchain; [|by rewrite patchChainFilters_nil in Hturn].
    split; [done|].
    rewrite (patchChainFilters_run _ _ _ chain) in Hturn by done.
    injection Hturn as _ _ <- _. rewrite Forall_forall in Hrest. apply Forall_forall.
    intros q Hq. eapply turnsSafely_insert_ne; [|by apply Hrest]. by intros ->.
  - split; [done|]. by injection Hturn as _ _ <- _.
Qed.

(** What a listener sub-orchestrator that ran to its end did, for a listener
    with distinct filter chains. *)
Lemma patchListener_outcome l h l' patched errL h' t :
  NoDup (FilterChains l) →
  patchListener b config l h = (Ok (l', patched, errL), h', t) →
  l' = l ∧
  match listenerSelection config l with
  | Some sel =>
      t = CallPatchFilter <$> (FilterChains l ≫= offeredAt sel h) ∧
      h' = patchChains b config sel h (FilterChains l) ∧
      patched = existsb (filterChanged b config) (FilterChains l ≫= offeredAt sel h) ∧
      errL = appendAll None
               (omap (filterError b config) (FilterChains l ≫= offeredAt sel h))
  | None => t = [] ∧ h' = h ∧ patched = false ∧ errL = None
  end.
Proof.
  intros Hnd. rewrite patchListener_selection.
  destruct (listenerSelection config l) as [sel|]; [|by intros [= <- <- <- <- <-]].
  intros Hrun. apply bind_inv_Ok in Hrun as ([patched1 r1]&h1&t1&t2&Hloop&Hret&->).
  injection Hret as <- <- <- <- <-.
  pose proof (forRange_chainBody_safe _ _ _ _ _ _ _ _ _ Hnd Hloop) as Hsafe.
  rewrite forRange_chainBody in Hloop by done.
  injection Hloop as <- <- <- <-. by rewrite app_nil_r.
Qed.

End listener_selection.

(** ** The filter chains are rebuilt in place *)
Section heap_rebuilt.
Context `{XdsCommon}.
Variable b : BasicEnvoyExtender.
Variable config : RuntimeConfig.

Lemma rebuiltChain_0 chain : rebuiltChain b config 0 chain = chain.
Proof. destruct chain. unfold rebuiltChain. simpl. by rewrite list_fmap_id. Qed.

Lemma rebuiltChain_add k1 k2 chain :
  rebuiltChain b config k2 (rebuiltChain b config k1 chain) =
  rebuiltChain b config (k2 + k1) chain.
Proof.
  unfold rebuiltChain. simpl. f_equal. rewrite <-list_fmap_compose.
  apply list_fmap_ext. intros i f _. simpl. by rewrite Nat.iter_add.
Qed.

Lemma rebuilt_refl h : rebuilt b config h h.
Proof. intros p. destruct (h !! p) as [chain|]; [|done]. exists 0. by rewrite rebuiltChain_0. Qed.

Lemma rebuilt_trans h1 h2 h3 :
  rebuilt b config h1 h2 → rebuilt b config h2 h3 → rebuilt b config h1 h3.
Proof.
  intros H12 H23 p. specialize (H12 p). specialize (H23 p).
  destruct (h1 !! p), (h2 !! p), (h3 !! p); try done.
  destruct H12 as [k1 ->], H23 as [k2 ->]. exists (k2 + k1). apply rebuiltChain_add.
Qed.

Lemma rebuilt_insert h p chain :
  h !! p = Some chain → rebuilt b config h (<[p := patchedChain b config chain]> h).
Proof.
  intros Hp q. destruct (decide (p = q)) as [<-|Hne].
  - rewrite lookup_insert_eq, Hp. by exists 1.
  - rewrite lookup_insert_ne by done. destruct (h !! q) as [c|]; [|done].
    exists 0. by rewrite rebuiltChain_0.
Qed.

Lemma patchChainFilters_rebuilt p patched r h :
  rebuilt b config h (heap (patchChainFilters b config p patched r h)).
Proof.
  destruct (h !! p) as [chain|] eqn:Hp.
  - rewrite (patchChainFilters_run _ _ _ chain) by done. by apply rebuilt_insert.
  - rewrite patchChainFilters_nil by done. apply rebuilt_refl.
Qed.

Lemma chainBody_rebuilt sel a p h :
  rebuilt b config h (heap (chainBody b config sel a p h)).
Proof.
  destruct a as [patched r]. rewrite chainBody_run.
  destruct (sel (h !! p)) as [[]|reason]; try apply rebuilt_refl.
  apply patchChainFilters_rebuilt.
Qed.

Lemma patchListener_rebuilt l h : rebuilt b config h (heap (patchListener b config l h)).
Proof.
  rewrite patchListener_selection.
  destruct (listenerSelection config l) as [sel|]; [|apply rebuilt_refl].
  rewrite heap_bind.
  pose proof (forRange_heap (rebuilt b config) (chainBody b config sel) (FilterChains l)
                rebuilt_refl rebuilt_trans (chainBody_rebuilt sel) (false, None) h) as Hl.
  by destruct (forRange _ _ _ _) as [[[[patched r]|reason] h1] t1].
Qed.

Lemma extendEntry_rebuilt a x h : rebuilt b config h (heap (extendEntry b config a x h)).
Proof.
  destruct a as [res r], x as [k [c|l|rt|goType]].
  - rewrite extendEntry_cluster. repeat case_match; apply rebuilt_refl.
  - rewrite extendEntry_listener. pose proof (patchListener_rebuilt l h) as Hl.
    destruct (patchListener b config l h) as [[[[[l' patched] errL]|reason] h1] t1];
      repeat case_match; simplify_eq; exact Hl.
  - rewrite extendEntry_route. repeat case_match; apply rebuilt_refl.
  - apply rebuilt_refl.
Qed.

(** However a pass ends, it leaves every filter chain where it was, with its
    match clause, and with its filter sequence rebuilt some number of times. *)
Lemma Extend_rebuilt range resources h :
  rebuilt b config h (heap (Extend b config range resources h)).
Proof.
  assert (∀ a h, rebuilt b config h
                   (heap (forRange (extendType b config range) a indexTypes h)))
    as Hloop.
  { apply forRange_heap; [apply rebuilt_refl|apply rebuilt_trans|].
    intros [res r] indexType h1. unfold extendType.
    apply forRange_heap; [apply rebuilt_refl|apply rebuilt_trans|].
    apply extendEntry_rebuilt. }
  unfold Extend. destruct (Kind config); [| |apply rebuilt_refl];
    (destruct (negb _); [apply rebuilt_refl|apply Hloop]).
Qed.

(** Rebuilding keeps a filter whose patch call fails. *)
Lemma iter_keptFilter_failed k filter newFilter ok e :
  PatchFilter (Extension b) config filter = (newFilter, ok, Some e) →
  Nat.iter k (keptFilter b config) filter = filter.
Proof.
  intros Hf. induction k as [|k IH]; [done|]. simpl. rewrite IH.
  unfold keptFilter. rewrite Hf. by destruct ok.
Qed.

End heap_rebuilt.

(** ** A pass runs to its end *)
Section totality.
Context `{XdsCommon}.
Variable b : BasicEnvoyExtender.
Variable config : RuntimeConfig.

Lemma forRange_total {A B} (Inv : A → gmap loc FilterChain → Prop) (body : A → B → M A) l :
  (∀ a h x, x ∈ l → Inv a h → ∃ a' h' t, body a x h = (Ok a', h', t) ∧ Inv a' h') →
  ∀ a h, Inv a h → ∃ a' h' t, forRange body a l h = (Ok a', h', t) ∧ Inv a' h'.
Proof.
  induction l as [|x l IH]; intros Hbody a h Ha.
  - exists a, h, []. by split.
  - destruct (Hbody a h x) as (a1&h1&t1&Hx&Ha1); [by left|done|].
    destruct (IH (λ a h y Hy, Hbody a h y (list_elem_of_further _ _ _ Hy)) a1 h1 Ha1)
      as (a2&h2&t2&Hl&Ha2).
    exists a2, h2, (t1 ++ t2). split; [|done].
    cbn [forRange]. rewrite bind_unfold, Hx, Hl. done.
Qed.

Lemma matched_sameShape h h' p :
  sameShape h h' →
  is_Some (h !! p ≫= FilterChainMatch) → is_Some (h' !! p ≫= FilterChainMatch).
Proof.
  intros Hshape. specialize (Hshape p).
  destruct (h !! p) as [chain|], (h' !! p) as [chain'|]; simpl; try done.
  destruct Hshape as [-> _]. done.
Qed.

Lemma listenerSelection_safe l sel chain :
  listenerSelection config l = Some sel →
  is_Some (FilterChainMatch chain) →
  ∃ go, sel (Some chain) = Ok go.
Proof.
  unfold listenerSelection. intros Hsel [m Hm].
  repeat case_match; simplify_eq; try (by eexists).
  unfold filterChainTProxyMatch. rewrite Hm. by eexists.
Qed.

Lemma patchListener_total l h :
  Forall (λ p, is_Some (h !! p ≫= FilterChainMatch)) (FilterChains l) →
  ∃ patched errL h' t, patchListener b config l h = (Ok (l, patched, errL), h', t).
Proof.
  intros Hmatched. rewrite patchListener_selection.
  destruct (listenerSelection config l) as [sel|] eqn:Hsel; [|by eexists _, _, _, _].
  destruct (forRange_total
              (λ _ h1, Forall (λ p, is_Some (h1 !! p ≫= FilterChainMatch)) (FilterChains l))
              (chainBody b config sel) (FilterChains l)) with (a := (false, @None error)) (h := h)
    as ([patched r]&h1&t1&Hloop&_); [|done|].
  - intros [patched r] h1 p Hp Hall. rewrite chainBody_run.
    rewrite Forall_forall in Hall. pose proof (Hall p Hp) as Hmp.
    destruct (h1 !! p) as [chain|] eqn:Hchain; [|by destruct Hmp].
    simpl in Hmp.
    destruct (listenerSelection_safe l sel chain Hsel Hmp) as [[|] ->].
    + rewrite (patchChainFilters_run _ _ _ chain) by done.
      eexists _, _, _. split; [done|]. apply Forall_forall. intros q Hq.
      eapply matched_sameShape; [|by apply Hall].
      apply (sameShape_insert _ _ chain); [done|]. split; [done|].
      simpl. by rewrite length_fmap.
    + eexists _, _, _. split; [done|]. by apply Forall_forall.
  - rewrite bind_unfold, Hloop. simpl. by eexists _, _, _, _.
Qed.

Lemma Extend_total range resources h :
  (∀ m, range m ≡ₚ map_to_list m) →
  wellTagged resources →
  chainsMatched resources h →
  ∃ resources' err h' t,
    Extend b config range resources h = (Ok (resources', err), h', t).
Proof.
  intros Hrange Htag Hmatched.
  assert ((Kind config = ServiceKindTerminatingGateway
           ∨ Kind config = ServiceKindConnectProxy) ∨
          (Kind config ≠ ServiceKindTerminatingGateway
           ∧ Kind config ≠ ServiceKindConnectProxy)) as [Hkind|Hkind]
    by (destruct (Kind config); [left; by left|left; by right|right; by split]);
    last first.
  { exists resources, None, h, []. apply Extend_inapplicable. by left. }
  destruct (CanApply (Extension b) config) eqn:Hcan; last first.
  { exists resources, None, h, []. apply Extend_inapplicable. by right. }
  rewrite (Extend_flat b config range Hrange) by done.
  destruct (forRange_total
              (λ a h1, (∀ T, is_Some (Index resources !! T) → is_Some (Index a.1 !! T)) ∧
                       sameShape h h1)
              (extendEntry b config) (visited range resources))
    with (a := (resources, @None error)) (h := h)
    as ([res' err]&h'&t&Hrun&_); [| |by exists res', err, h', t].
  2: { split; [done|apply sameShape_refl]. }
  intros [res r] h1 [k msg] Hin [Hidx Hshape]. simpl in Hidx.
  apply (elem_of_visited range Hrange) in Hin as (T&HT&Hentry).
  assert (tagAgrees T msg) as Hagree.
  { unfold wellTagged in Htag. rewrite Forall_forall in Htag.
    apply (Htag T HT k msg). by rewrite indexOf_lookup. }
  assert (is_Some (Index res !! T)) as [m Hm].
  { apply Hidx. unfold entry_at in Hentry. by destruct (Index resources !! T). }
  assert (∀ v, ∀ T', is_Some (Index resources !! T') →
            is_Some (<[T := <[k := v]> m]> (Index res) !! T')) as Hidx'.
  { intros v T' HT'. destruct (decide (T = T')) as [<-|Hne].
    - rewrite lookup_insert_eq. by eexists.
    - rewrite lookup_insert_ne by done. by apply Hidx. }
  destruct msg as [c|l|rt|goType]; simpl in Hagree; subst.
  - rewrite extendEntry_cluster, Hm.
    repeat case_match; eexists _, _, _; (split; [done|]); split; simpl; try done;
      apply Hidx'.
  - destruct (patchListener_total l h1) as (patched&errL&h2&t2&Hl).
    { unfold chainsMatched in Hmatched. rewrite Forall_forall in Hmatched.
      apply Forall_forall. intros p Hp. eapply matched_sameShape; [done|].
      apply Hmatched. apply list_elem_of_bind. exists (k, MListener l). split; [done|].
      apply elem_of_map_to_list. by rewrite indexOf_lookup. }
    assert (sameShape h h2) as Hshape2.
    { eapply sameShape_trans; [done|]. pose proof (patchListener_shape b config l h1) as Hs.
      by rewrite Hl in Hs. }
    rewrite extendEntry_listener, Hl, Hm.
    repeat case_match; eexists _, _, _; (split; [done|]); split; simpl; try done;
      apply Hidx'.
  - rewrite extendEntry_route, Hm.
    repeat case_match; eexists _, _, _; (split; [done|]); split; simpl; try done;
      apply Hidx'.
  - rewrite extendEntry_other. eexists _, _, _. split; [done|]. by split.
Qed.

End totality.

(** On a resource set whose kind tags agree with the payload types and
    whose listeners have no nil filter chain and no filter chain without a
    match clause, a pass runs to its end and returns a resource set, whatever
    the patch calls return and in whatever order the maps are iterated: no
    error of a patch call and no unsupported payload stops it. *)
Lemma Extend_runs_to_end `{XdsCommon} b config range resources h :
  (∀ m, range m ≡ₚ map_to_list m) →
  wellTagged resources →
  chainsMatched resources h →
  ∃ resources' err h' t,
    Extend b config range resources h = (Ok (resources', err), h', t).
Proof. apply Extend_total. Qed.




(** ** The names and kinds of the entries are kept *)
Section kept_entries.
Context `{XdsCommon}.
Variable b : BasicEnvoyExtender.
Variable config : RuntimeConfig.
Variable range : gmap string Message → list (string * Message).
Hypothesis range_perm : ∀ m, range m ≡ₚ map_to_list m.

Lemma sameKind_refl msg : sameKind msg msg.
Proof. by destruct msg. Qed.

Lemma sameEntry_refl entry : sameEntry entry entry.
Proof. destruct entry; [apply sameKind_refl|done]. Qed.

Lemma entryWrite_sameKind nameOrSNI msg indexType v :
  entryWrite b config nameOrSNI msg indexType v → sameKind msg v.
Proof. by destruct 1. Qed.

Lemma sameKind_trans msg1 msg2 msg3 :
  sameKind msg1 msg2 → sameKind msg2 msg3 → sameKind msg1 msg3.
Proof. destruct msg1, msg2, msg3; simpl; try done; congruence. Qed.

Lemma Extend_sameEntry resources h resources' err h' t indexType nameOrSNI :
  wellTagged resources →
  Extend b config range resources h = (Ok (resources', err), h', t) →
  sameEntry (entry_at resources indexType nameOrSNI)
            (entry_at resources' indexType nameOrSNI).
Proof.
  intros Htag Hrun.
  assert ((Kind config = ServiceKindTerminatingGateway
           ∨ Kind config = ServiceKindConnectProxy) ∨
          (Kind config ≠ ServiceKindTerminatingGateway
           ∧ Kind config ≠ ServiceKindConnectProxy)) as [Hkind|Hkind]
    by (destruct (Kind config); [left; by left|left; by right|right; by split]);
    last first.
  { rewrite Extend_inapplicable in Hrun by (by left).
    injection Hrun as <- _ _ _. apply sameEntry_refl. }
  destruct (CanApply (Extension b) config) eqn:Hcan; last first.
  { rewrite Extend_inapplicable in Hrun by (by right).
    injection Hrun as <- _ _ _. apply sameEntry_refl. }
  rewrite (Extend_flat b config range range_perm) in Hrun by done.
  assert (∀ T k, sameEntry (entry_at resources T k) (entry_at (resources', err).1 T k))
    as Hall; [|apply Hall].
  revert Hrun.
  apply (forRange_invariant
           (λ a : IndexedResources * option error,
              ∀ T k, sameEntry (entry_at resources T k) (entry_at a.1 T k)));
    [|intros; apply sameEntry_refl].
  intros [res r] [k0 msg] h1 [res1 r1] h2 t1 Hin Hinv Hturn T k. simpl in *.
  apply extendEntry_index in Hturn as [->|(Tw&v&m&Hw&Hm&Hidx)]; [apply Hinv|].
  rewrite (entry_at_write _ _ _ _ _ _ _ _ Hm Hidx).
  destruct (decide (Tw = T ∧ k0 = k)) as [[<- <-]|_]; [|apply Hinv].
  destruct (visited_slot range range_perm resources (k0, msg) Tw k0 Htag Hin
              (entryWrite_slot b config _ _ _ _ Hw)) as [_ Hentry].
  rewrite Hentry. simpl. by eapply entryWrite_sameKind.
Qed.

End kept_entries.



(** ** What a pass leaves in the filter chains *)
Section chain_writes.
Context `{XdsCommon}.
Variable b : BasicEnvoyExtender.
Variable config : RuntimeConfig.
Variable range : gmap string Message → list (string * Message).
Hypothesis range_perm : ∀ m, range m ≡ₚ map_to_list m.

Lemma forRange_chainBody_frame sel ps acc h p :
  p ∉ ps → heap (forRange (chainBody b config sel) acc ps h) !! p = h !! p.
Proof using Type.
  revert acc h. induction ps as [|q ps IH]; intros [patched r] h Hp; [done|].
  apply not_elem_of_cons in Hp as [Hne Hp].
  cbn [forRange]. rewrite heap_bind, chainBody_run.
  destruct (sel (h !! q)) as [[]|reason]; [| |done].
  - destruct (h !! q) as [chain|] eqn:Hq.
    + rewrite (patchChainFilters_run _ _ _ chain) by done.
      rewrite IH by done. by rewrite lookup_insert_ne.
    + by rewrite patchChainFilters_nil.
  - by rewrite IH.
Qed.

Lemma patchListener_frame l h p :
  p ∉ FilterChains l → heap (patchListener b config l h) !! p = h !! p.
Proof using Type.
  intros Hp. rewrite patchListener_selection.
  destruct (listenerSelection config l) as [sel|]; [|done].
  rewrite heap_bind.
  pose proof (forRange_chainBody_frame sel (FilterChains l) (false, None) h p Hp) as Hl.
  by destruct (forRange _ _ _ _) as [[[[patched r]|reason] h1] t1].
Qed.

(** A turn writes no filter chain but those of its listener. *)
Lemma extendEntry_heap_frame a x h p :
  p ∉ chainsOf x → heap (extendEntry b config a x h) !! p = h !! p.
Proof using Type.
  destruct a as [res r], x as [k [c|l|rt|goType]]; unfold chainsOf; cbn [snd]; intros Hp.
  - rewrite extendEntry_cluster. by repeat case_match.
  - rewrite extendEntry_listener. pose proof (patchListener_frame l h p Hp) as Hl.
    destruct (patchListener b config l h) as [[[[[l' patched] errL]|reason] h1] t1];
      repeat case_match; simplify_eq; exact Hl.
  - rewrite extendEntry_route. by repeat case_match.
  - done.
Qed.

Lemma forRange_extendEntry_heap_frame es a h a' h' t p :
  p ∉ es ≫= chainsOf →
  forRange (extendEntry b config) a es h = (Ok a', h', t) →
  h' !! p = h !! p.
Proof using Type.
  intros Hp.
  apply (forRange_invariant_heap (λ _ h1, h1 !! p = h !! p)); [|done].
  intros a1 x h1 a2 h2 t1 Hx Hh1 Hturn. rewrite <-Hh1.
  pose proof (extendEntry_heap_frame a1 x h1 p) as Hf. rewrite Hturn in Hf. apply Hf.
  intros Hin. apply Hp. apply list_elem_of_bind. by exists x.
Qed.

Lemma chainsOf_other_tag es indexType :
  indexType ≠ ListenerType →
  Forall (λ entry, tagAgrees indexType entry.2) es →
  es ≫= chainsOf = [].
Proof using Type.
  intros Hne. induction 1 as [|[k msg] es Hmsg _ IH]; [done|].
  rewrite bind_cons, IH, app_nil_r. unfold chainsOf. simpl in *.
  destruct msg; simpl in *; congruence.
Qed.

(** On a well-tagged set the filter chains a pass visits are those of the
    Listener index. *)
Lemma visited_chains resources :
  wellTagged resources →
  chainsUnshared resources →
  NoDup (visited range resources ≫= chainsOf).
Proof using range_perm.
  intros Htag Hunshared. destruct indexTypes_distinct as (HLR&HLC&HRC).
  unfold visited, indexTypes. rewrite !bind_cons.
  change (@mbind list _ _ _ _ []) with (@nil (string * Message)).
  rewrite app_nil_r, !bind_app.
  rewrite (chainsOf_other_tag (range (indexOf resources RouteType)) RouteType);
    [|done|apply (wellTagged_range range range_perm); [done|set_solver]].
  rewrite (chainsOf_other_tag (range (indexOf resources ClusterType)) ClusterType);
    [|done|apply (wellTagged_range range range_perm); [done|set_solver]].
  rewrite !app_nil_r. unfold chainsUnshared in Hunshared.
  by rewrite range_perm.
Qed.

(** The chains of a listener of the Listener index after a pass that ran to
    its end, when no chain is shared: a selected chain has its filters
    rebuilt, every one of them having been offered; any other chain is as it
    was. *)
Lemma Extend_chain_outcome resources h resources' err h' t nameOrSNI l p :
  wellTagged resources →
  chainsUnshared resources →
  Kind config = ServiceKindTerminatingGateway ∨ Kind config = ServiceKindConnectProxy →
  CanApply (Extension b) config = true →
  Extend b config range resources h = (Ok (resources', err), h', t) →
  entry_at resources ListenerType nameOrSNI = Some (MListener l) →
  p ∈ FilterChains l →
  match listenerSelection config l with
  | Some sel =>
      match sel (h !! p) with
      | Ok true =>
          h' !! p = patchedChain b config <$> h !! p ∧
          ∀ filter, filter ∈ offeredAt sel h p → CallPatchFilter filter ∈ t
      | _ => h' !! p = h !! p
      end
  | None => h' !! p = h !! p
  end.
Proof using range_perm.
  intros Htag Hunshared Hkind Hcan Hrun Hentry Hp.
  rewrite (Extend_flat b config range range_perm) in Hrun by done.
  pose proof (visited_chains resources Htag Hunshared) as Hnd.
  assert ((nameOrSNI, MListener l) ∈ visited range resources) as Hin.
  { apply (elem_of_visited range range_perm). exists ListenerType. split; [|done].
    unfold indexTypes. repeat constructor. }
  apply list_elem_of_split in Hin as (l1&l2&Hsplit). rewrite Hsplit in Hrun, Hnd.
  rewrite bind_app, bind_cons in Hnd.
  change (chainsOf (nameOrSNI, MListener l)) with (FilterChains l) in Hnd.
  apply NoDup_app in Hnd as (_&Hl1&Hnd). apply NoDup_app in Hnd as (Hndl&Hl2&_).
  apply forRange_at in Hrun
    as ([res1 e1]&h1&t1&[res2 e2]&h2&t2&t3&Hrun1&Hturn&Hrun2&->).
  assert (h1 !! p = h !! p) as Hh1.
  { eapply forRange_extendEntry_heap_frame; [|done].
    intros Hq. apply (Hl1 _ Hq). by apply elem_of_app; left. }
  assert (h' !! p = h2 !! p) as Hh2.
  { eapply forRange_extendEntry_heap_frame; [|done]. by apply Hl2. }
  rewrite extendEntry_listener in Hturn.
  destruct (patchListener b config l h1) as [[[[[l' patched] errL]|reason] h1'] tl] eqn:Hl;
    [|done].
  assert (h1' = h2 ∧ tl = t2) as [-> ->] by (repeat case_match; by simplify_eq).
  clear Hturn. apply patchListener_outcome in Hl as [_ Hl]; [|done].
  destruct (listenerSelection config l) as [sel|].
  - destruct Hl as (->&->&_&_). rewrite Hh2, patchChains_lookup_in by done.
    rewrite Hh1. destruct (sel (h !! p)) as [[]|reason] eqn:Hsel; [|done..].
    split; [done|]. intros filter Hf.
    apply elem_of_app. right. apply elem_of_app. left.
    apply list_elem_of_fmap_2, list_elem_of_bind. exists p. split; [|done].
    unfold offeredAt in *. by rewrite Hh1.
  - destruct Hl as (_&->&_&_). congruence.
Qed.

End chain_writes.

(** ** Claims about errors *)

(** C1: in a pass that ran to its end, a resource whose patch call returned
    an error is, in the returned resource set, in the form it had before the
    call; a resource whose patch call returned changed = true and a nil error
    is in the form the call returned; and the aggregate error mentions every
    error a patch call returned.  Clusters and routes are entries of the
    index.  Filters are held by the filter chains of the listeners, which the
    pass rebuilds in place: every chain keeps its address and its match
    clause, a filter whose PatchFilter call fails keeps its place whatever
    else happens, and in a chain that belongs to one listener and is selected
    by it every filter is offered once and is replaced exactly when its call
    returned changed = true and a nil error. *)
Theorem Extend_keeps_failed_and_replaces_patched `{XdsCommon} b config range resources h
    resources' err h' t :
  (∀ m, range m ≡ₚ map_to_list m) →
  wellTagged resources →
  Extend b config range resources h = (Ok (resources', err), h', t) →
  (∀ c e, c ∈ t → callError b config c = Some e → Mentioned err e) ∧
  (∀ nameOrSNI cluster,
     entry_at resources ClusterType nameOrSNI = Some (MCluster cluster) →
     CallPatchCluster nameOrSNI cluster ∈ t →
     match PatchCluster (Extension b) config cluster with
     | (_, _, Some e) =>
         entry_at resources' ClusterType nameOrSNI = Some (MCluster cluster) ∧
         Mentioned err e
     | (newCluster, true, None) =>
         entry_at resources' ClusterType nameOrSNI = Some (MCluster newCluster)
     | (_, false, None) =>
         entry_at resources' ClusterType nameOrSNI = Some (MCluster cluster)
     end) ∧
  (∀ nameOrSNI route,
     entry_at resources RouteType nameOrSNI = Some (MRoute route) →
     CallPatchRoute nameOrSNI route ∈ t →
     match PatchRoute (Extension b) config route with
     | (_, _, Some e) =>
         entry_at resources' RouteType nameOrSNI = Some (MRoute route) ∧
         Mentioned err e
     | (newRoute, true, None) =>
         entry_at resources' RouteType nameOrSNI = Some (MRoute newRoute)
     | (_, false, None) =>
         entry_at resources' RouteType nameOrSNI = Some (MRoute route)
     end) ∧
  (∀ p chain,
     h !! p = Some chain →
     ∃ k chain',
       h' !! p = Some chain' ∧
       FilterChainMatch chain' = FilterChainMatch chain ∧
       Filters chain' = Nat.iter k (keptFilter b config) <$> Filters chain) ∧
  (∀ p chain i filter newFilter ok e,
     h !! p = Some chain →
     Filters chain !! i = Some filter →
     PatchFilter (Extension b) config filter = (newFilter, ok, Some e) →
     ∃ chain', h' !! p = Some chain' ∧ Filters chain' !! i = Some filter) ∧
  (chainsUnshared resources →
   CanApply (Extension b) config = true →
   ∀ nameOrSNI l p chain,
     entry_at resources ListenerType nameOrSNI = Some (MListener l) →
     p ∈ FilterChains l →
     h !! p = Some chain →
     entry_at resources' ListenerType nameOrSNI = Some (MListener l) ∧
     match listenerSelection config l with
     | Some sel =>
         match sel (Some chain) with
         | Ok true =>
             (∀ filter, filter ∈ Filters chain → CallPatchFilter filter ∈ t) ∧
             ∃ chain',
               h' !! p = Some chain' ∧
               FilterChainMatch chain' = FilterChainMatch chain ∧
               length (Filters chain') = length (Filters chain) ∧
               ∀ i filter,
                 Filters chain !! i = Some filter →
                 match PatchFilter (Extension b) config filter with
                 | (_, _, Some e) =>
                     Filters chain' !! i = Some filter ∧ Mentioned err e
                 | (newFilter, true, None) => Filters chain' !! i = Some newFilter
                 | (_, false, None) => Filters chain' !! i = Some filter
                 end
         | _ => h' !! p = Some chain
         end
     | None => h' !! p = Some chain
     end).
Proof.
  intros Hrange Htag Hrun.
  pose proof (Extend_error_mentions_failures b config range resources h resources' err h' t)
    as Hment. specialize (λ c e, Hment c e Hrun).
  pose proof (Extend_calls_in_scope b config range resources h) as Hscope.
  rewrite Hrun in Hscope. simpl in Hscope. rewrite Forall_forall in Hscope.
  assert (Kind config = ServiceKindTerminatingGateway ∨ Kind config = ServiceKindConnectProxy
          ∨ (t = [] ∧ h' = h ∧ resources' = resources ∧
             ∀ l, listenerSelection config l = None)) as Hkind.
  { destruct (Kind config) eqn:Hk; [by left|right; by left|right; right].
    rewrite Extend_inapplicable in Hrun by (left; rewrite Hk; by split).
    injection Hrun as <- _ <- <-. repeat split; try done.
    intros l. unfold listenerSelection. by rewrite Hk. }
  assert (∀ c, c ∈ t →
            (Kind config = ServiceKindTerminatingGateway
             ∨ Kind config = ServiceKindConnectProxy) ∧
            CanApply (Extension b) config = true) as Hran.
  { intros c Hc. split.
    - destruct Hkind as [?|[?|(->&_)]]; [by left|by right|]. by apply elem_of_nil in Hc.
    - destruct (CanApply (Extension b) config) eqn:Hcan; [done|].
      rewrite Extend_inapplicable in Hrun by (by right).
      injection Hrun as _ _ _ <-. by apply elem_of_nil in Hc. }
  assert (∀ p chain,
            h !! p = Some chain →
            ∃ k chain',
              h' !! p = Some chain' ∧
              FilterChainMatch chain' = FilterChainMatch chain ∧
              Filters chain' = Nat.iter k (keptFilter b config) <$> Filters chain)
    as Hrebuilt.
  { intros p chain Hchain.
    pose proof (Extend_rebuilt b config range resources h p) as Hp.
    rewrite Hrun, Hchain in Hp. unfold heap in Hp. simpl in Hp.
    destruct (h' !! p) as [chain'|]; [|done]. destruct Hp as [k ->].
    by exists k, (rebuiltChain b config k chain). }
  split; [done|]. split; [|split; [|split; [done|split]]].
  - intros k c Hentry Hcall. destruct (Hran _ Hcall) as [Hk Hcan].
    pose proof (Hscope _ Hcall) as Hin. simpl in Hin.
    destruct (Extend_cluster_outcome b config range resources h resources' err h' t k c)
      as [_ Hentry']; try done.
    unfold keptCluster in Hentry'. specialize (Hment (CallPatchCluster k c)).
    simpl in Hment.
    destruct (PatchCluster (Extension b) config c) as [[newCluster [|]] [e|]]; try done;
      (split; [done|by apply Hment]).
  - intros k r Hentry Hcall. destruct (Hran _ Hcall) as [Hk Hcan].
    pose proof (Hscope _ Hcall) as Hin. simpl in Hin.
    destruct (Extend_route_outcome b config range resources h resources' err h' t k r)
      as [_ Hentry']; try done.
    unfold keptRoute in Hentry'. specialize (Hment (CallPatchRoute k r)).
    simpl in Hment.
    destruct (PatchRoute (Extension b) config r) as [[newRoute [|]] [e|]]; try done;
      (split; [done|by apply Hment]).
  - intros p chain i filter newFilter ok e Hchain Hi Hf.
    destruct (Hrebuilt p chain Hchain) as (k&chain'&Hchain'&_&Hfilters).
    exists chain'. split; [done|].
    rewrite Hfilters, list_lookup_fmap, Hi. simpl. f_equal.
    by eapply iter_keptFilter_failed.
  - intros Hunshared Hcan k l p chain Hentry Hp Hchain. split.
    { pose proof (Extend_sameEntry b config range Hrange resources h resources' err h' t
                    ListenerType k Htag Hrun) as Hsame.
      rewrite Hentry in Hsame. unfold sameEntry in Hsame.
      destruct (entry_at resources' ListenerType k) as [[]|]; simpl in Hsame; try done.
      by subst. }
    destruct Hkind as [Hk|[Hk|(_&->&_&Hnone)]]; [| |by rewrite Hnone].
    all: pose proof (Extend_chain_outcome b config range Hrange resources h resources' err h' t
                       k l p Htag Hunshared ltac:(tauto) Hcan Hrun Hentry Hp) as Hout.
    all: destruct (listenerSelection config l) as [sel|]; [|by rewrite Hout, Hchain].
    all: rewrite Hchain in Hout.
    all: destruct (sel (Some chain)) as [[]|reason] eqn:Hsel; [|done..].
    all: destruct Hout as [Hheap Hoffered].
    all: unfold offeredAt in Hoffered; rewrite Hchain, Hsel in Hoffered.
    all: split; [done|].
    all: exists (patchedChain b config chain); split; [done|].
    all: split; [done|]; split; [simpl; by rewrite length_fmap|].
    all: intros i filter Hi; simpl; rewrite list_lookup_fmap, Hi; simpl.
    all: pose proof (Hment (CallPatchFilter filter)) as Hm; simpl in Hm.
    all: assert (CallPatchFilter filter ∈ t) as Hcall
           by (apply Hoffered; by eapply list_elem_of_lookup_2).
    all: unfold keptFilter.
    all: destruct (PatchFilter (Extension b) config filter) as [[newFilter [|]] [e|]];
           try done; (split; [done|by apply Hm]).
Qed.

Lemma Extend_keeps_failed_and_replaces_patched_witness :
  ∃ resources' err h' t,
    Extend {| Extension := marking_extension |}
           (upstream_config ServiceKindConnectProxy db_snis) map_to_list
           upstream_resources upstream_heap = (Ok (resources', err), h', t) ∧
    entry_at resources' ClusterType "bad.default.dc1.internal.consul"
    = Some (MCluster (named_cluster "bad")) ∧
    Mentioned err (ErrorString "bad cluster") ∧
    entry_at resources' ClusterType "db.default.dc1.internal.consul"
    = Some (MCluster {| cluster_Name := "db.default.dc1.internal.consul";
                        cluster_Config := "patched" |}) ∧
    Mentioned err (ErrorString "bad filter") ∧
    ∃ chain',
      h' !! 2%positive = Some chain' ∧
      Filters chain' !! 0%nat = Some (tcp_filter "bad") ∧
      Filters chain' !! 1%nat
      = Some {| filter_Name := "tcp";
                TypedConfig := Some {| TypeUrl := "patched"; Value := "" |} |}.
Proof.
  destruct (ran_Ok (Extend {| Extension := marking_extension |}
              (upstream_config ServiceKindConnectProxy db_snis) map_to_list
              upstream_resources upstream_heap))
    as ([resources' err]&h'&t&Hrun); [vm_compute; reflexivity|].
  exists resources', err, h', t. split; [exact Hrun|].
  assert (calls (Extend {| Extension := marking_extension |}
                   (upstream_config ServiceKindConnectProxy db_snis) map_to_list
                   upstream_resources upstream_heap) = t) as Ht
    by (rewrite Hrun; reflexivity).
  destruct (Extend_keeps_failed_and_replaces_patched
              {| Extension := marking_extension |}
              (upstream_config ServiceKindConnectProxy db_snis) map_to_list
              upstream_resources upstream_heap resources' err h' t)
    as (Hment&Hcluster&_&_&_&Hfilters);
    [reflexivity|unfold wellTagged; compute_done|exact Hrun|].
  clear Hrun.
  pose proof (Hcluster "bad.default.dc1.internal.consul" (named_cluster "bad")) as Hbad.
  pose proof (Hcluster "db.default.dc1.internal.consul"
                (named_cluster "db.default.dc1.internal.consul")) as Hdb.
  pose proof (Hment (CallPatchFilter (tcp_filter "bad")) (ErrorString "bad filter")) as Hfilter.
  rewrite <-Ht in Hbad, Hdb, Hfilter.
  split; [apply Hbad; [vm_compute; reflexivity|]|].
  { vm_compute. repeat (first [apply list_elem_of_here | apply list_elem_of_further]). }
  split; [apply Hbad; [vm_compute; reflexivity|]|].
  { vm_compute. repeat (first [apply list_elem_of_here | apply list_elem_of_further]). }
  split; [apply Hdb; [vm_compute; reflexivity|]|].
  { vm_compute. repeat (first [apply list_elem_of_here | apply list_elem_of_further]). }
  split; [apply Hfilter; [|vm_compute; reflexivity]|].
  { vm_compute. repeat (first [apply list_elem_of_here | apply list_elem_of_further]). }
  destruct (Hfilters ltac:(unfold chainsUnshared; compute_done) eq_refl
              "outbound_listener:127.0.0.1:15001"
              {| Name := "outbound_listener:127.0.0.1:15001";
                 FilterChains := [2%positive; 3%positive] |}
              2%positive
              (prefix_chain "10.0.0.5" [tcp_filter "bad"; tcp_filter "tcp"]))
    as [_ (_&chain'&Hchain'&_&_&Hat)];
    [vm_compute; reflexivity|apply list_elem_of_here|vm_compute; reflexivity|].
  exists chain'. split; [exact Hchain'|]. split.
  - exact (proj1 (Hat 0%nat (tcp_filter "bad") eq_refl)).
  - exact (Hat 1%nat (tcp_filter "tcp") eq_refl).
Defined.

(** C2: the aggregate error of a pass is nil exactly when no patch call
    returned an error and no payload of an unsupported type was met; it
    mentions the error of every failed patch call and holds the error of every
    unsupported payload; and no error stops the pass: whatever the patch calls
    return the pass runs to its end, and every resource in scope is passed to
    its patch call. *)
Theorem Extend_aggregates_every_error `{XdsCommon} b config range resources h :
  (∀ m, range m ≡ₚ map_to_list m) →
  wellTagged resources →
  Kind config = ServiceKindTerminatingGateway ∨ Kind config = ServiceKindConnectProxy →
  CanApply (Extension b) config = true →
  (chainsMatched resources h →
   ∃ resources' err h' t,
     Extend b config range resources h = (Ok (resources', err), h', t)) ∧
  ∀ resources' err h' t,
    Extend b config range resources h = (Ok (resources', err), h', t) →
    (err = None ↔
     (∀ c, c ∈ t → callError b config c = None) ∧
     (∀ indexType nameOrSNI goType,
        indexType ∈ indexTypes →
        entry_at resources indexType nameOrSNI ≠ Some (MOther goType))) ∧
    (∀ c e, c ∈ t → callError b config c = Some e → Mentioned err e) ∧
    (∀ indexType nameOrSNI goType,
       indexType ∈ indexTypes →
       entry_at resources indexType nameOrSNI = Some (MOther goType) →
       ErrorfT "unsupported type was skipped" goType ∈ errorsOf err) ∧
    (∀ nameOrSNI cluster,
       entry_at resources ClusterType nameOrSNI = Some (MCluster cluster) →
       (IsUpstream config = true ∧ MatchesUpstreamServiceSNI config nameOrSNI = true) ∨
       (IsUpstream config = false ∧ nameOrSNI ≠ LocalAppClusterName) →
       CallPatchCluster nameOrSNI cluster ∈ t) ∧
    (∀ nameOrSNI route,
       entry_at resources RouteType nameOrSNI = Some (MRoute route) →
       IsUpstream config = true →
       MatchesUpstreamServiceSNI config nameOrSNI = true ∨ EnvoyID config = nameOrSNI →
       CallPatchRoute nameOrSNI route ∈ t) ∧
    (chainsUnshared resources →
     ∀ nameOrSNI l sel p chain filter,
       entry_at resources ListenerType nameOrSNI = Some (MListener l) →
       listenerSelection config l = Some sel →
       p ∈ FilterChains l →
       h !! p = Some chain →
       sel (Some chain) = Ok true →
       filter ∈ Filters chain →
       CallPatchFilter filter ∈ t).
Proof.
  intros Hrange Htag Hkind Hcan. split.
  { intros Hmatched. by apply Extend_runs_to_end. }
  intros resources' err h' t Hrun.
  split; [by eapply Extend_error_nil_iff|].
  split; [intros c e; by eapply Extend_error_mentions_failures|].
  split; [intros T k ty; by eapply Extend_reports_unsupported|].
  split; [|split].
  - intros k c Hentry Hscope.
    eapply Extend_cluster_outcome; try done.
    unfold clusterMatches. destruct Hscope as [[-> ->]|[-> Hne]]; [done|].
    by rewrite bool_decide_eq_false_2.
  - intros k r Hentry Hup Hscope.
    eapply Extend_route_outcome; try done.
    unfold routeMatches. rewrite Hup. simpl. apply orb_true_iff.
    destruct Hscope as [->|Heq]; [by left|right; by apply bool_decide_eq_true].
  - intros Hunshared k l sel p chain filter Hentry Hsel Hp Hchain Hgo Hfilter.
    pose proof (Extend_chain_outcome b config range Hrange resources h resources' err h' t
                  k l p Htag Hunshared Hkind Hcan Hrun Hentry Hp) as Hout.
    rewrite Hsel, Hchain, Hgo in Hout. destruct Hout as [_ Hoffered].
    apply Hoffered. unfold offeredAt. by rewrite Hchain, Hgo.
Qed.

Lemma Extend_aggregates_every_error_witness :
  (∃ resources' err h' t,
     Extend {| Extension := marking_extension |}
            (upstream_config ServiceKindConnectProxy db_snis) map_to_list
            upstream_resources upstream_heap = (Ok (resources', err), h', t) ∧
     err ≠ None ∧
     Mentioned err (ErrorString "bad filter") ∧
     Mentioned err (ErrorString "bad cluster") ∧
     CallPatchCluster "db.default.dc1.internal.consul"
       (named_cluster "db.default.dc1.internal.consul") ∈ t ∧
     CallPatchRoute "db" (named_route "db") ∈ t) ∧
  (∃ resources' err h' t,
     Extend {| Extension := marking_extension |}
            (upstream_config ServiceKindConnectProxy db_snis) map_to_list
            stray_resources ∅ = (Ok (resources', err), h', t) ∧
     ErrorfT "unsupported type was skipped"
             "*envoy_extensions_transport_sockets_tls_v3.Secret" ∈ errorsOf err ∧
     Mentioned err (ErrorString "bad cluster")).
Proof.
  split.
  - destruct (Extend_aggregates_every_error
                {| Extension := marking_extension |}
                (upstream_config ServiceKindConnectProxy db_snis) map_to_list
                upstream_resources upstream_heap)
      as [Hends Hall];
      [reflexivity|unfold wellTagged; compute_done|by right|reflexivity|].
    destruct Hends as (resources'&err&h'&t&Hrun); [unfold chainsMatched; compute_done|].
    exists resources', err, h', t. split; [exact Hrun|].
    assert (calls (Extend {| Extension := marking_extension |}
                     (upstream_config ServiceKindConnectProxy db_snis) map_to_list
                     upstream_resources upstream_heap) = t) as Ht
      by (rewrite Hrun; reflexivity).
    destruct (Hall resources' err h' t Hrun) as (_&Hment&_&Hcluster&Hroute&_).
    clear Hall Hrun.
    pose proof (Hment (CallPatchFilter (tcp_filter "bad")) (ErrorString "bad filter")) as Hf.
    pose proof (Hment (CallPatchCluster "bad.default.dc1.internal.consul"
                         (named_cluster "bad"))
                  (ErrorString "bad cluster")) as Hc.
    rewrite <-Ht in Hf, Hc.
    assert (Mentioned err (ErrorString "bad filter")) as Hmf.
    { apply Hf; [|vm_compute; reflexivity].
      vm_compute. repeat (first [apply list_elem_of_here | apply list_elem_of_further]). }
    split.
    { intros Herr. destruct Hmf as (e0&Hin&_). rewrite Herr in Hin.
      exact (proj1 (elem_of_nil e0) Hin). }
    split; [exact Hmf|]. split.
    { apply Hc; [|vm_compute; reflexivity].
      vm_compute. repeat (first [apply list_elem_of_here | apply list_elem_of_further]). }
    split.
    + apply Hcluster; [vm_compute; reflexivity|]. left. split; vm_compute; reflexivity.
    + apply Hroute; [vm_compute; reflexivity|reflexivity|]. right. reflexivity.
  - destruct (Extend_aggregates_every_error
                {| Extension := marking_extension |}
                (upstream_config ServiceKindConnectProxy db_snis) map_to_list
                stray_resources ∅)
      as [Hends Hall];
      [reflexivity|unfold wellTagged; compute_done|by right|reflexivity|].
    destruct Hends as (resources'&err&h'&t&Hrun); [unfold chainsMatched; compute_done|].
    exists resources', err, h', t. split; [exact Hrun|].
    assert (calls (Extend {| Extension := marking_extension |}
                     (upstream_config ServiceKindConnectProxy db_snis) map_to_list
                     stray_resources ∅) = t) as Ht
      by (rewrite Hrun; reflexivity).
    destruct (Hall resources' err h' t Hrun) as (_&Hment&Hother&_).
    clear Hall Hrun.
    pose proof (Hment (CallPatchCluster "bad.default.dc1.internal.consul"
                         (named_cluster "bad"))
                  (ErrorString "bad cluster")) as Hc.
    rewrite <-Ht in Hc.
    split.
    + apply (Hother ListenerType "secret"); [apply list_elem_of_here|vm_compute; reflexivity].
    + apply Hc; [|vm_compute; reflexivity].
      vm_compute. repeat (first [apply list_elem_of_here | apply list_elem_of_further]).
Defined.
